(** * ml-tutorial.ipynb: the radiomics tutorial notebook, embedded in Rocq

    The notebook [ML/ml-tutorial.ipynb] is a sequence of Python cells that
    call SimpleITK, pandas and scikit-learn.  This development embeds the
    code cells that carry logic of their own:

    - the dataset index [database] built from five sorted glob lists,
    - the exercise function [load_img_norm], shipped with an empty body,
    - the histogram cell that calls it,
    - the data-preparation cell (pivot, column renaming, label encoding),
    - the confusion-matrix cell.

    Library calls are modelled by the documented behaviour of the call as
    the notebook uses it; each such definition says which call it stands
    for.  Python exceptions are an explicit error result. *)

From Stdlib Require Import ZArith QArith Reals Lra Lia Ascii String.
From stdpp Require Import base tactics option list sorting gmap strings pretty.

Local Open Scope string_scope.

(** ** Python results and the notebook's run-time state *)

Module Py.

(** The exceptions the modelled cells can raise. *)
Inductive exn : Type :=
| NameError (name : string)
| KeyError (key : string)
| ValueError (msg : string)
| AttributeError (msg : string)
| RuntimeError (msg : string)
| OverflowError (msg : string).

Inductive result (A : Type) : Type :=
| Ok (a : A)
| Raise (e : exn).
Arguments Ok {A} a.
Arguments Raise {A} e.

Definition is_ok {A} (r : result A) : Prop := ∃ a, r = Ok a.

Definition rbind {A B} (r : result A) (k : A → result B) : result B :=
  match r with
  | Ok a => k a
  | Raise e => Raise e
  end.

(** A SimpleITK image: the voxel array (slices, rows, columns) and the
    spatial information [CopyInformation] carries over. *)
Definition ndarray : Type := list (list (list Q)).

Record geometry : Type := Geometry {
  spacing : list Q;
  origin : list Q;
  direction : list Q
}.

Record image : Type := Image {
  voxels : ndarray;
  information : geometry
}.

(** A column-oriented DataFrame of strings, as [database] is: the columns
    in dict order, each with its values. *)
Definition frame : Type := list (string * list string).

(** The objects a global name of the notebook can be bound to. *)
Inductive pyobj : Type :=
| PyNone
| PyInt (z : Z)
| PyStr (s : string)
| PyImage (i : image)
| PyArray (a : ndarray)
| PyFrame (d : frame)
| PyLib (name : string).

(** The state a cell runs in: the files under the working directory and
    the paths [sitk.ReadImage] has opened so far, in order. *)
Record world : Type := World {
  disk : gmap string image;
  opened : list string
}.

(** A computation reads the module namespace (the notebook's globals),
    threads the world and returns or raises. *)
Definition M (A : Type) : Type := gmap string pyobj → world → result A * world.

Definition ret {A} (a : A) : M A := λ _ w, (Ok a, w).

Definition bind {A B} (m : M A) (k : A → M B) : M B :=
  λ g w,
    match m g w with
    | (Ok a, w') => k a g w'
    | (Raise e, w') => (Raise e, w')
    end.

Definition lift {A} (r : result A) : M A := λ _ w, (r, w).

(** Reading a name that the function body never assigns: a global lookup,
    [NameError] when the name is unbound. *)
Definition load_global (name : string) : M pyobj :=
  λ g w,
    match g !! name with
    | Some v => (Ok v, w)
    | None => (Raise (NameError name), w)
    end.

(** Computations that leave the files as they are. *)
Definition keeps_disk {A} (m : M A) : Prop :=
  ∀ g w, disk (m g w).2 = disk w.

(** Evaluate the computations left to right, as a list display does. *)
Fixpoint sequence {A} (ms : list (M A)) : M (list A) :=
  match ms with
  | [] => ret []
  | m :: ms' => bind m (λ a, bind (sequence ms') (λ l, ret (a :: l)))
  end.

End Py.

Import Py.

#[global] Instance M_ret : MRet Py.M := @Py.ret.
#[global] Instance M_bind : MBind Py.M := λ A B k m, Py.bind m k.
#[global] Instance result_ret : MRet Py.result := @Py.Ok.
#[global] Instance result_bind : MBind Py.result := λ A B k r, Py.rbind r k.

(** ** SimpleITK calls *)

Module Sitk.

(** [sitk.ReadImage(path)]: the image stored at [path]; the file is opened
    for reading and left as it is. *)
Definition ReadImage (path : string) : M image :=
  λ _ w,
    match disk w !! path with
    | Some img => (Ok img, World (disk w) (opened w ++ [path]))
    | None => (Raise (RuntimeError path), w)
    end.

(** [sitk.GetArrayFromImage(img)] *)
Definition GetArrayFromImage (img : image) : ndarray := voxels img.

End Sitk.

(** ** Python and pandas calls of the indexing cell *)

(** [sorted(l)] on a list of strings: a stable merge sort under Python's
    order on [str], which compares code points left to right. *)
Definition sorted (l : list string) : list string := merge_sort String.le l.

Module Glob.

(** A file two directory levels below [data/mri], which is where every
    pattern of the notebook looks: [data/mri/<grade_dir>/<patient_dir>/<file_name>]. *)
Record entry : Type := Entry {
  grade_dir : string;
  patient_dir : string;
  file_name : string
}.

#[global] Instance entry_eq_dec : EqDecision entry.
Proof. solve_decision. Defined.

(** The path of file [f] in the directory [data/mri/<d.1>/<d.2>]. *)
Definition dir_path (d : string * string) (f : string) : string :=
  "data/mri/" ++ d.1 ++ "/" ++ d.2 ++ "/" ++ f.

(** The patient directory a file lies in. *)
Definition dir_of (e : entry) : string * string := (grade_dir e, patient_dir e).

Definition path_of (e : entry) : string := dir_path (dir_of e) (file_name e).

(** A directory name holds no separator. *)
Fixpoint slash_free (s : string) : bool :=
  match s with
  | EmptyString => true
  | String c s' => negb (Ascii.eqb c "/") && slash_free s'
  end.

Definition dir_slash_free (d : string * string) : Prop :=
  slash_free d.1 ∧ slash_free d.2.

Definition well_named (fs : list entry) : Prop :=
  ∀ e, e ∈ fs → dir_slash_free (dir_of e).

(** Entries ordered by their path, directories by the path of the
    directory. *)
Definition path_le (e1 e2 : entry) : Prop := String.le (path_of e1) (path_of e2).

Definition dir_le (d1 d2 : string * string) : Prop :=
  String.le (dir_path d1 "") (dir_path d2 "").

(** [suffix] is a suffix of [s]. *)
Fixpoint ends_with (suffix s : string) : bool :=
  if String.eqb suffix s then true
  else match s with
       | EmptyString => false
       | String _ s' => ends_with suffix s'
       end.

(** A wildcard never matches a name that starts with a dot. *)
Definition hidden (name : string) : bool := String.prefix "." name.

(** The pattern component [*<suffix>] against one name; a [**] component
    is the case of the empty suffix, since the notebook does not pass
    [recursive=True]. *)
Definition star (suffix name : string) : bool :=
  negb (hidden name) && ends_with suffix name.

Definition matches (suffix : string) (e : entry) : bool :=
  star "" (grade_dir e) && star "" (patient_dir e) && star suffix (file_name e).

(** [glob.glob('data/mri/**/**/*<suffix>')] over the listing [fs]: the
    paths of the matching files, in the order the directory scan yields. *)
Definition glob (fs : list entry) (suffix : string) : list string :=
  path_of <$> filter (λ e, matches suffix e) fs.

(** Every patient directory contributes exactly one file per pattern:
    whatever the pattern, the directories of its matches are the same
    directories [dirs], each once. *)
Definition one_file_per_patient (fs : list entry) (suffixes : list string) : Prop :=
  ∃ dirs, NoDup dirs
          ∧ ∀ suffix, suffix ∈ suffixes →
              dir_of <$> filter (λ e, matches suffix e) fs ≡ₚ dirs.

End Glob.

Module Pd.

(** [pd.DataFrame(dict of lists)]: pandas refuses columns of different
    lengths with [ValueError]; otherwise the columns are kept in dict
    order and row [i] is made of the [i]-th value of every column. *)
Definition DataFrame (data : list (string * list string)) : result frame :=
  match data with
  | [] => Ok []
  | (_, c) :: rest =>
      if forallb (λ kv, Nat.eqb (length kv.2) (length c)) rest
      then Ok data
      else Raise (ValueError "All arrays must be of the same length")
  end.

Fixpoint column (df : frame) (name : string) : option (list string) :=
  match df with
  | [] => None
  | (k, c) :: df' => if String.eqb k name then Some c else column df' name
  end.

(** [df.at[i, name]] on the default integer index. *)
Definition at_ (df : frame) (i : nat) (name : string) : result string :=
  match column df name with
  | None => Raise (KeyError name)
  | Some c =>
      match c !! i with
      | Some v => Ok v
      | None => Raise (KeyError (pretty i))
      end
  end.

End Pd.

(** ** Cell: the dataset index

<<
t1_file_list = sorted(glob.glob('data/mri/**/**/*_t1.nii.gz'))
...
database = pd.DataFrame({'T1': t1_file_list, 'T2': t2_file_list,
    'T1ce': t1ce_file_list, 'FLAIR': flair_file_list, 'Seg': seg_file_list})
>> *)

Section Index.

Variable fs : list Glob.entry.

Definition t1_file_list : list string := sorted (Glob.glob fs "_t1.nii.gz").
Definition t2_file_list : list string := sorted (Glob.glob fs "_t2.nii.gz").
Definition t1ce_file_list : list string := sorted (Glob.glob fs "_t1ce.nii.gz").
Definition flair_file_list : list string := sorted (Glob.glob fs "_flair.nii.gz").
Definition seg_file_list : list string := sorted (Glob.glob fs "_seg.nii.gz").

Definition database_dict : list (string * list string) := [
  ("T1", t1_file_list);
  ("T2", t2_file_list);
  ("T1ce", t1ce_file_list);
  ("FLAIR", flair_file_list);
  ("Seg", seg_file_list)
].

Definition database : result frame := Pd.DataFrame database_dict.

End Index.

(** The columns of the index with the suffix their pattern ends in. *)
Definition modalities : list (string * string) := [
  ("T1", "_t1.nii.gz");
  ("T2", "_t2.nii.gz");
  ("T1ce", "_t1ce.nii.gz");
  ("FLAIR", "_flair.nii.gz");
  ("Seg", "_seg.nii.gz")
].

(** ** Cell: loading one image

<<
IDX = 10
img_sitk = sitk.ReadImage(database.at[IDX,'T1'])
img_np = sitk.GetArrayFromImage(img_sitk)
seg_sitk = sitk.ReadImage(database.at[IDX,'Seg'])
seg_np = sitk.GetArrayFromImage(seg_sitk)
>> *)

Definition IDX : nat := 10.

Definition as_frame (o : pyobj) : result frame :=
  match o with
  | PyFrame d => Ok d
  | _ => Raise (AttributeError "at")
  end.

(** [database.at[i, name]], with [database] read from the globals. *)
Definition database_at (i : nat) (name : string) : M string :=
  o ← load_global "database";
  d ← lift (as_frame o);
  lift (Pd.at_ d i name).

Definition load_single : M ((image * ndarray) * (image * ndarray)) :=
  p ← database_at IDX "T1";
  img_sitk ← Sitk.ReadImage p;
  let img_np := Sitk.GetArrayFromImage img_sitk in
  q ← database_at IDX "Seg";
  seg_sitk ← Sitk.ReadImage q;
  let seg_np := Sitk.GetArrayFromImage seg_sitk in
  mret ((img_sitk, img_np), (seg_sitk, seg_np)).

(** ** Cell: Exercise 1, as shipped

<<
def load_img_norm(image_dir, threshold=0):
  ### START CODE HERE ###

  ### END CODE HERE ###
  return normalized_sitk, normalized_np
>>

    Nothing stands between the two markers, so neither name is local to
    the function: the [return] reads both from the globals, left to
    right, and builds the pair. *)

Definition threshold_default : Q := 0%Q.

Definition load_img_norm (image_dir : string) (threshold : Q) : M (pyobj * pyobj) :=
  normalized_sitk ← load_global "normalized_sitk";
  normalized_np ← load_global "normalized_np";
  mret (normalized_sitk, normalized_np).

(** Every global name that a code cell of the notebook binds (imports,
    assignments, loop variables and the [def]), in cell order. *)
Definition notebook_names : list string := [
  "glob"; "pd"; "sns"; "sitk"; "plt"; "featureextractor";
  "t1_file_list"; "t2_file_list"; "t1ce_file_list"; "flair_file_list";
  "seg_file_list"; "database";
  "IDX"; "img_sitk"; "img_np"; "seg_sitk"; "seg_np";
  "SLIDE";
  "fig"; "axes"; "i";
  "t1_np"; "t2_np"; "t1ce_np"; "flair_np"; "all_images"; "k"; "img"; "colormap";
  "load_img_norm";
  "data"; "d";
  "train_test_split"; "x_data"; "y_data"; "x_train"; "x_test"; "y_train"; "y_test";
  "accuracy_train"; "probs"; "accuracy_test";
  "confusion_matrix"; "ConfusionMatrixDisplay"; "predictions"; "cm"; "disp"
].

(** A namespace that holds nothing but what the notebook's cells bind. *)
Definition bound_by_notebook (g : gmap string pyobj) : Prop :=
  ∀ name, is_Some (g !! name) → name ∈ notebook_names.

(** ** Cell: histogram of the normalized modalities

<<
IDX = 10
plt.hist([
    load_img_norm(database.at[IDX,'T1'])[1].ravel(),
    load_img_norm(database.at[IDX,'T2'])[1].ravel(),
    load_img_norm(database.at[IDX,'T1ce'])[1].ravel(),
    load_img_norm(database.at[IDX,'FLAIR'])[1].ravel(),
    ], ...)
>> *)

Definition ravel (a : ndarray) : list Q := concat (concat a).

Definition as_array (o : pyobj) : result ndarray :=
  match o with
  | PyArray a => Ok a
  | _ => Raise (AttributeError "ravel")
  end.

Definition normalized_values (name : string) : M (list Q) :=
  p ← database_at IDX name;
  r ← load_img_norm p threshold_default;
  a ← lift (as_array r.2);
  mret (ravel a).

Definition histogram_data : M (list (list Q)) :=
  Py.sequence (normalized_values <$> ["T1"; "T2"; "T1ce"; "FLAIR"]).

(** ** Cell: data preparation

<<
data = data.pivot_table(index=['patient', 'label'],
                        columns=['sequence'],
                        values=data.columns[3:])
data.columns = ['_'.join(col).strip() for col in data.columns.values]
data.reset_index(level=1, inplace=True)

# Convert LGG into class 0 and HGG into class 1
data.loc[data['label'] == 'HGG', 'label'] = 1
data.loc[data['label'] == 'LGG', 'label'] = 0
>> *)

Module Radiomics.

(** [data/radiomics.csv] is downloaded, not shipped; the cells that use it
    fix its layout: three leading columns, which the pivot names
    [patient], [sequence] and [label], and then the numeric feature
    columns [data.columns[3:]].  The three leading columns hold text,
    a feature cell holds a number. *)
Record row : Type := Row {
  patient : string;
  sequence : string;
  label : string;
  features : list Q
}.

Record table : Type := Table {
  feature_names : list string;
  rows : list row
}.

Fixpoint index_of (name : string) (names : list string) : option nat :=
  match names with
  | [] => None
  | n :: names' => if String.eqb n name then Some 0 else S <$> index_of name names'
  end.

(** The value of column [name] in row [r]. *)
Definition value (t : table) (r : row) (name : string) : option Q :=
  i ← index_of name (feature_names t); features r !! i.

(** pandas orders a two-level index by the first level, then the second.
    Patient identifiers and labels are text here; a column of numerals
    would be read as integers and ordered by value, which moves rows and
    nothing else. *)
Definition pair_le (a b : string * string) : Prop :=
  if decide (a.1 = b.1) then String.le a.2 b.2 else String.le a.1 b.1.

#[global] Instance pair_le_dec : RelDecision pair_le.
Proof. intros a b. unfold pair_le. destruct (decide (a.1 = b.1)); apply _. Defined.

(** The groups of the pivot's row index: the distinct [(patient, label)]
    pairs, sorted. *)
Definition keys (t : table) : list (string * string) :=
  merge_sort pair_le (remove_dups ((λ r, (patient r, label r)) <$> rows t)).

Definition sequences (t : table) : list string :=
  sorted (remove_dups (sequence <$> rows t)).

(** The values of feature [f] in the rows of group [key] and sequence [s]. *)
Definition group (t : table) (key : string * string) (f s : string) : list Q :=
  omap (λ r, value t r f)
       (filter (λ r, (patient r, label r) = key ∧ sequence r = s) (rows t)).

Definition total (l : list Q) : Q := foldr Qplus 0%Q l.

(** [aggfunc='mean'], the default; a group without rows gives a missing
    cell.  The mean is the exact one: it is the floating-point mean for a
    group of one value, and its rounding for larger groups is left out. *)
Definition mean (l : list Q) : option Q :=
  match l with
  | [] => None
  | _ => Some (total l / inject_Z (Z.of_nat (length l)))%Q
  end.

(** The pivoted frame: the two-level column index [(feature, sequence)],
    the two-level row index [(patient, label)], and the cells row by row.
    With the default [dropna=True] pandas leaves out a group or a column
    whose cells are all missing; a table with a number in every feature
    cell has none, and [pivot_table] below is the pivot of such tables. *)
Record pivoted : Type := Pivoted {
  columns : list (string * string);
  index : list (string * string);
  cells : list (list (option Q))
}.

Definition pivot_table (t : table) : pivoted :=
  let cols := f ← sorted (feature_names t); s ← sequences t; [(f, s)] in
  Pivoted cols (keys t)
          ((λ key, (λ c, mean (group t key c.1 c.2)) <$> cols) <$> keys t).

(** [str.strip()]: the white space Python strips from both ends, among
    the ASCII characters.  Python strips further white space outside
    ASCII (U+0085, U+00A0, ...), so [strip] is Python's on ASCII names. *)
Definition is_space (c : ascii) : bool :=
  let n := nat_of_ascii c in
  (Nat.leb 9 n && Nat.leb n 13) || (Nat.leb 28 n && Nat.leb n 32).

Fixpoint lstrip (s : string) : string :=
  match s with
  | String c s' => if is_space c then lstrip s' else s
  | EmptyString => EmptyString
  end.

Definition strip (s : string) : string :=
  String.rev (lstrip (String.rev (lstrip s))).

(** ['_'.join(col).strip()] for each column [col]. *)
Definition joined (cols : list (string * string)) : list string :=
  (λ col, strip (col.1 ++ "_" ++ col.2)) <$> cols.

(** A cell of the [label] column: text as read, or the class written
    over it. *)
Inductive cell : Type :=
| Str (s : string)
| Int (z : Z).

#[global] Instance cell_eq_dec : EqDecision cell.
Proof. solve_decision. Defined.

(** The frame after [reset_index(level=1)]: indexed by patient, with the
    [label] column next to the feature columns. *)
Record prepared_row : Type := PRow {
  p_patient : string;
  p_label : cell;
  p_values : list (option Q)
}.

Record prepared : Type := Prepared {
  column_names : list string;
  prepared_rows : list prepared_row
}.

Definition reset_index (names : list string) (p : pivoted) : prepared :=
  Prepared names
           (zip_with (λ key vs, PRow key.1 (Str key.2) vs) (index p) (cells p)).

(** [data.loc[data['label'] == old, 'label'] = new] *)
Definition set_label_where (old : string) (new : Z) (d : prepared) : prepared :=
  Prepared (column_names d)
           ((λ r, if decide (p_label r = Str old)
                  then PRow (p_patient r) (Int new) (p_values r)
                  else r) <$> prepared_rows d).

Definition prepare (t : table) : prepared :=
  let data := pivot_table t in
  let names := joined (columns data) in
  let data := reset_index names data in
  let data := set_label_where "HGG" 1 data in
  set_label_where "LGG" 0 data.

(** What the two assignments make of a label read from the file. *)
Definition encoded (l : string) : cell :=
  if decide (l = "HGG") then Int 1
  else if decide (l = "LGG") then Int 0
  else Str l.

End Radiomics.

(** ** Cells: targets and the confusion matrix

<<
x_data, y_data = data.drop(columns='label'), data['label'].astype(int).to_numpy()
...
cm = confusion_matrix(y_test, predictions, labels=clf.classes_)
disp = ConfusionMatrixDisplay(confusion_matrix=cm, display_labels=['LGG','HGG'])
disp.plot(cmap='Blues')
>> *)

Module Sk.

(** [np.unique(y)]: the sorted distinct values.  A scikit-learn classifier
    fitted on targets [y] keeps them as [classes_]. *)
Definition unique (y : list Z) : list Z := merge_sort Z.le (remove_dups y).

(** The samples whose true class is [a] and predicted class is [b]. *)
Definition hits (y_true y_pred : list Z) (a b : Z) : nat :=
  length (filter (λ p, p.1 = a ∧ p.2 = b) (zip y_true y_pred)).

(** [confusion_matrix(y_true, y_pred, labels=labels)]: entry [(i, j)]
    counts the samples of true class [labels[i]] predicted as
    [labels[j]]. *)
Definition confusion_matrix (y_true y_pred labels : list Z) : result (list (list nat)) :=
  if decide (length y_true = length y_pred) then
    if decide (labels = []) then
      Raise (ValueError "'labels' should contains at least one label.")
    else if decide (y_true ≠ [] ∧ Forall (λ l, l ∉ y_true) labels) then
      Raise (ValueError "At least one label specified must be in y_true")
    else Ok ((λ a, (λ b, hits y_true y_pred a b) <$> labels) <$> labels)
  else Raise (ValueError "Found input variables with inconsistent numbers of samples").

(** [ConfusionMatrixDisplay(confusion_matrix=cm, display_labels=names).plot()]:
    tick [i] of either axis is labelled [names[i]]; rows are true
    classes, columns predicted ones.  The plot needs as many names as
    ticks. *)
Definition ConfusionMatrixDisplay (cm : list (list nat)) (names : list string)
  : result (list (string * list (string * nat))) :=
  if decide (length names = length cm)
  then Ok (zip names ((λ counts, zip names counts) <$> cm))
  else Raise (ValueError "The number of FixedLocator locations does not match the number of labels").

End Sk.

(** The range of [numpy.int64], which [int] names as a dtype. *)
Definition int64 (z : Z) : Prop := (- 2 ^ 63 ≤ z ∧ z < 2 ^ 63)%Z.

#[global] Instance int64_dec z : Decision (int64 z).
Proof. unfold int64. apply _. Defined.

Section Targets.

(** Python's [int] on text: the number a numeral denotes, nothing
    otherwise. *)
Variable int_of_str : string → option Z.

(** [astype(int)] on one cell of the label column: the classes written
    by the data preparation are kept; text goes through [int], and the
    number must fit the 64-bit integer of the array. *)
Definition astype_int (c : Radiomics.cell) : result Z :=
  match c with
  | Radiomics.Int z => Ok z
  | Radiomics.Str s =>
      match int_of_str s with
      | Some z =>
          if decide (int64 z) then Ok z
          else Raise (OverflowError "Python int too large to convert to C long")
      | None => Raise (ValueError s)
      end
  end.

Fixpoint astype_int_all (cs : list Radiomics.cell) : result (list Z) :=
  match cs with
  | [] => Ok []
  | c :: cs' => z ← astype_int c; zs ← astype_int_all cs'; mret (z :: zs)
  end.

Definition y_data (data : Radiomics.prepared) : result (list Z) :=
  astype_int_all (Radiomics.p_label <$> Radiomics.prepared_rows data).

End Targets.

Definition display_labels : list string := ["LGG"; "HGG"].

(** The confusion-matrix cell, given the classifier's [classes_]. *)
Definition confusion_cell (classes_ y_test predictions : list Z)
  : result (list (string * list (string * nat))) :=
  cm ← Sk.confusion_matrix y_test predictions classes_;
  Sk.ConfusionMatrixDisplay cm display_labels.

(** The two grades of the dataset. *)
Definition grade (l : string) : Prop := l = "HGG" ∨ l = "LGG".

(** A label of the file that [astype(int)] accepts after the two
    assignments: a grade, or text that [int] parses to a 64-bit number. *)
Definition label_ok (int_of_str : string → option Z) (l : string) : Prop :=
  grade l ∨ ∃ z, int_of_str l = Some z ∧ int64 z.

(** [train_test_split] deals the row positions of the frame into a
    training and a test part; which position goes where is the library's
    choice.  The rows of [l] at the positions [idx]. *)
Definition rows_at {A} (idx : list nat) (l : list A) : list A :=
  omap (λ i, l !! i) idx.

(** The class the data preparation gives a grade. *)
Definition class_of (l : string) : Z := if decide (l = "HGG") then 1%Z else 0%Z.

(** The test samples of grade [name] that were predicted as class [b]. *)
Definition graded_hits (labels : list string) (predictions : list Z)
    (name : string) (b : Z) : nat :=
  length (filter (λ p, p.1 = name ∧ p.2 = b) (zip labels predictions)).

(** ** The normalization Exercise 1 asks for *)

Module Zscore.

Local Open Scope R_scope.

Definition volume : Type := list (list (list R)).

Definition flat (v : volume) : list R := concat (concat v).

#[global] Instance Rlt_decision : RelDecision Rlt := Rlt_dec.

(** The voxels strictly above the threshold. *)
Definition above (threshold : R) (l : list R) : list R :=
  filter (λ x, threshold < x) l.

Definition total (l : list R) : R := foldr Rplus 0 l.

(** A quotient either has a value or its divisor is zero. *)
Inductive outcome (A : Type) : Type :=
| Value (a : A)
| DivideByZero.
Arguments Value {A} a.
Arguments DivideByZero {A}.

Definition mean (l : list R) : outcome R :=
  match l with
  | [] => DivideByZero
  | _ => Value (total l / INR (length l))
  end.

(** The squared deviations from [m]. *)
Definition deviations (m : R) (l : list R) : list R :=
  (λ x, (x - m) * (x - m)) <$> l.

(** The population standard deviation, numpy's default. *)
Definition std (l : list R) : outcome R :=
  match mean l with
  | Value m => Value (sqrt (total (deviations m l) / INR (length l)))
  | DivideByZero => DivideByZero
  end.

Definition rescale (m s : R) (v : volume) : volume :=
  map (map (map (λ x, (x - m) / s))) v.

(** Modelled from the spec: the body of [load_img_norm], which the
    notebook leaves blank between its START and END markers.  The spec
    gives it as "mask by threshold, compute mean and standard deviation
    over the masked subset, rescale all voxels", and the notebook's
    Part II as [(I - mu) / sigma] with [mu] and [sigma] taken over the
    pixels above the threshold.  Arithmetic is exact. *)
Definition normalize (v : volume) (threshold : R) : outcome volume :=
  let masked := above threshold (flat v) in
  match mean masked, std masked with
  | Value m, Value s =>
      if Req_dec_T s 0 then DivideByZero else Value (rescale m s v)
  | _, _ => DivideByZero
  end.

(** The values of [out] at the positions where [v] is above the
    threshold. *)
Definition at_masked (v out : volume) (threshold : R) : list R :=
  snd <$> filter (λ p, threshold < p.1) (zip (flat v) (flat out)).

End Zscore.

(** ** Cell: a grid of slices

<<
fig, axes = plt.subplots(ncols=5, nrows=4, figsize=(7, 5))

for i in range(0,img_np.shape[0],8):
  axes.ravel()[i//8].set_title(f'Slice: {i}')
  axes.ravel()[i//8].imshow(img_np[i,...], cmap='gray')
  axes.ravel()[i//8].imshow(seg_np[i,...], alpha=0.5)
  axes.ravel()[i//8].axis('off')
>> *)

Module Plot.

Definition slice : Type := list (list Q).

(** What [imshow] has put on an axes. *)
Inductive layer : Type :=
| Gray (s : slice)
| Overlay (s : slice).

(** One axes of the figure: its title (the slice number), the images
    drawn on it in drawing order, and whether its frame is still on. *)
Record axes : Type := Axes {
  title : option nat;
  layers : list layer;
  framed : bool
}.

Definition blank : axes := Axes None [] true.

(** [plt.subplots(ncols, nrows)], raveled. *)
Definition subplots (ncols nrows : nat) : list axes :=
  replicate (nrows * ncols) blank.

(** Indexing past the end of an array. *)
Inductive error : Type :=
| IndexError (index size : nat).

(** [range(0, n, 8)] *)
Definition slice_indices (n : nat) : list nat :=
  (λ k, 8 * k) <$> seq 0 ((n + 7) / 8).

Definition set_title (i : nat) (a : axes) : axes :=
  Axes (Some i) (layers a) (framed a).

Definition imshow (l : layer) (a : axes) : axes :=
  Axes (title a) (layers a ++ [l]) (framed a).

Definition axis_off (a : axes) : axes :=
  Axes (title a) (layers a) false.

(** One turn of the loop on the figure [fig]: what the figure has
    become, and the exception that stopped the turn, if any. *)
Definition draw (img seg : ndarray) (i : nat) (fig : list axes)
  : list axes * option error :=
  let k := i / 8 in
  match fig !! k with
  | None => (fig, Some (IndexError k (length fig)))
  | Some _ =>
      let fig := alter (set_title i) k fig in
      match img !! i with
      | None => (fig, Some (IndexError i (length img)))
      | Some s =>
          let fig := alter (imshow (Gray s)) k fig in
          match seg !! i with
          | None => (fig, Some (IndexError i (length seg)))
          | Some s' =>
              let fig := alter (imshow (Overlay s')) k fig in
              (alter axis_off k fig, None)
          end
      end
  end.

(** The loop: it stops at the first exception. *)
Fixpoint draw_all (img seg : ndarray) (indices : list nat) (fig : list axes)
  : list axes * option error :=
  match indices with
  | [] => (fig, None)
  | i :: indices' =>
      match draw img seg i fig with
      | (fig', None) => draw_all img seg indices' fig'
      | stopped => stopped
      end
  end.

Definition slice_grid (img seg : ndarray) : list axes * option error :=
  draw_all img seg (slice_indices (length img)) (subplots 5 4).

(** The axes of slice [8 * k] when the turn went through. *)
Definition drawn (img seg : ndarray) (k : nat) : axes :=
  Axes (Some (8 * k))
       [Gray (default [] (img !! (8 * k))); Overlay (default [] (seg !! (8 * k)))]
       false.

(** The figure after [j] turns of the loop: [j] drawn axes, the rest
    blank. *)
Definition after_turns (img seg : ndarray) (j : nat) : list axes :=
  ((drawn img seg <$> seq 0 j) ++ replicate (20 - j) blank)%list.

End Plot.

(** ** Cell: features and targets

<<
x_data, y_data = data.drop(columns='label'), data['label'].astype(int).to_numpy()
>> *)

(** [data.drop(columns='label')]: the feature cells, row by row. *)
Definition x_data (data : Radiomics.prepared) : list (list (option Q)) :=
  Radiomics.p_values <$> Radiomics.prepared_rows data.

(** ** Properties of tables and names *)

(** Every row of the table has a number in each feature column. *)
Definition complete (t : Radiomics.table) : Prop :=
  Forall (λ r, length (Radiomics.features r) = length (Radiomics.feature_names t))
         (Radiomics.rows t).

(** Every character of [s] is an ASCII character. *)
Fixpoint is_ascii (s : string) : bool :=
  match s with
  | EmptyString => true
  | String c s' => Nat.ltb (nat_of_ascii c) 128 && is_ascii s'
  end.

(** No character of [s] is an underscore. *)
Fixpoint underscore_free (s : string) : bool :=
  match s with
  | EmptyString => true
  | String c s' => negb (Ascii.eqb c "_") && underscore_free s'
  end.

(** * Concrete inputs *)

Module Sample.

Definition patient_files (grade name : string) : list Glob.entry :=
  (λ m, Glob.Entry grade name (name ++ m.2)) <$> modalities.

(** Eleven patient directories, each with its five files. *)
Definition fs : list Glob.entry :=
  name ← ["p10"; "p03"; "p01"; "p02"; "p00"; "p04"; "p05"; "p06"; "p07"; "p08"; "p09"];
  patient_files (if String.eqb name "p03" then "LGG" else "HGG") name.

Definition index : frame :=
  match database fs with
  | Ok d => d
  | Raise _ => []
  end.

(** The globals after the notebook's cells ran: every name they bind,
    [database] being the index frame. *)
Definition globals : gmap string pyobj :=
  <["database" := PyFrame index]>
    (list_to_map ((λ n, (n, PyLib n)) <$> notebook_names)).

Definition unit_geometry : geometry :=
  Geometry [1; 1; 1]%Q [0; 0; 0]%Q [1; 0; 0; 0; 1; 0; 0; 0; 1]%Q.

Definition t1_image : image :=
  Image [[[0; 0; 3]; [0; 5; 7]]]%Q unit_geometry.

Definition seg_image : image :=
  Image [[[0; 0; 1]; [0; 1; 1]]]%Q unit_geometry.

(** Row [IDX] of the index. *)
Definition t1_path : string := "data/mri/LGG/p03/p03_t1.nii.gz".
Definition seg_path : string := "data/mri/LGG/p03/p03_seg.nii.gz".

Definition w : world :=
  World (<[ t1_path := t1_image ]> {[ seg_path := seg_image ]}) [].

(** A listing where [p1] holds two T1 files and [p2] none: the five lists
    have the same length, and the T1 column is out of step. *)
Definition fs_misaligned : list Glob.entry :=
  Glob.Entry "HGG" "p1" "p1_old_t1.nii.gz"
  :: patient_files "HGG" "p1"
  ++ filter (λ e, Glob.file_name e ≠ "p2_t1.nii.gz") (patient_files "HGG" "p2").

(** A radiomics table with two features, two patients and two sequences,
    one row for each patient and sequence. *)
Definition table : Radiomics.table :=
  Radiomics.Table ["volume"; "energy"] [
    Radiomics.Row "p2" "t1" "HGG" [1 # 2; 3]%Q;
    Radiomics.Row "p1" "t2" "LGG" [5 # 2; 7]%Q;
    Radiomics.Row "p1" "t1" "LGG" [9 # 2; 11]%Q;
    Radiomics.Row "p2" "t2" "HGG" [13 # 2; 15]%Q
  ].

(** One patient whose two rows disagree on the label. *)
Definition table_two_labels : Radiomics.table :=
  Radiomics.Table ["volume"] [
    Radiomics.Row "p1" "t1" "HGG" [1]%Q;
    Radiomics.Row "p1" "t2" "LGG" [2]%Q
  ].

(** One slice with a background voxel and two voxels above zero, and
    its normalization. *)
Definition volume : Zscore.volume := [[[0; 1; 3]]]%R.
Definition normalized : Zscore.volume := [[[-2; -1; 1]]]%R.

(** Two patient directories only: row [IDX] does not exist. *)
Definition fs_small : list Glob.entry :=
  patient_files "HGG" "p1" ++ patient_files "LGG" "p2".

Definition globals_small : gmap string pyobj :=
  {[ "database" := PyFrame (database_dict fs_small) ]}.

End Sample.

(** * The exercise function as shipped *)

Section Shipped.

Variables (g : gmap string pyobj) (w : world).

(** A global lookup never touches the world. *)
Lemma load_global_world name : (load_global name g w).2 = w.
Proof. unfold load_global. by destruct (g !! name). Qed.

Lemma load_global_unbound name :
  g !! name = None → load_global name g w = (Raise (NameError name), w).
Proof. intros Hn. unfold load_global. by rewrite Hn. Qed.

Lemma load_global_bound name v :
  g !! name = Some v → load_global name g w = (Ok v, w).
Proof. intros Hn. unfold load_global. by rewrite Hn. Qed.

Lemma bind_raise {A B} (m : M A) (k : A → M B) e w' :
  m g w = (Raise e, w') → (x ← m; k x) g w = (Raise e, w').
Proof. intros Hm. unfold mbind, M_bind, Py.bind. by rewrite Hm. Qed.

Lemma bind_ok {A B} (m : M A) (k : A → M B) a w' :
  m g w = (Ok a, w') → (x ← m; k x) g w = k a g w'.
Proof. intros Hm. unfold mbind, M_bind, Py.bind. by rewrite Hm. Qed.

End Shipped.

(** No cell of the notebook binds either name of the [return]. *)
Lemma notebook_leaves_unbound g :
  bound_by_notebook g →
  g !! "normalized_sitk" = None ∧ g !! "normalized_np" = None.
Proof.
  intros Hg. split.
  - destruct (g !! "normalized_sitk") eqn:E; [|done].
    exfalso. assert (H : "normalized_sitk" ∈ notebook_names) by (apply Hg; eauto).
    revert H. apply (bool_decide_unpack (_ ∉ _)). vm_compute. exact I.
  - destruct (g !! "normalized_np") eqn:E; [|done].
    exfalso. assert (H : "normalized_np" ∈ notebook_names) by (apply Hg; eauto).
    revert H. apply (bool_decide_unpack (_ ∉ _)). vm_compute. exact I.
Qed.

(** C1, as amended: the shipped [load_img_norm] opens no image and
    computes no mean, deviation or rescaling.  Whatever the path and the
    threshold, the call leaves the world as it was and its outcome is
    fixed by the globals alone: the pair of the objects bound to
    [normalized_sitk] and [normalized_np] when both are bound, and
    [NameError] for the first unbound one otherwise. *)
Theorem load_img_norm_as_shipped (g : gmap string pyobj) (w : world)
    (image_dir : string) (threshold : Q) :
  load_img_norm image_dir threshold g w =
    (match g !! "normalized_sitk", g !! "normalized_np" with
     | Some a, Some b => Ok (a, b)
     | None, _ => Raise (NameError "normalized_sitk")
     | Some _, None => Raise (NameError "normalized_np")
     end, w).
Proof.
  unfold load_img_norm.
  destruct (g !! "normalized_sitk") as [a|] eqn:Ha.
  - rewrite (bind_ok _ _ _ _ a w) by by apply load_global_bound.
    destruct (g !! "normalized_np") as [b|] eqn:Hb.
    + by rewrite (bind_ok _ _ _ _ b w) by by apply load_global_bound.
    + by apply bind_raise, load_global_unbound.
  - by apply bind_raise, load_global_unbound.
Qed.

(** C1, counterexample: the image at row [IDX] of the sample index is on
    disk and has voxels above the default threshold, yet the call
    raises [NameError] instead of returning a normalized pair, and the
    image was never opened. *)
Lemma load_img_norm_sample_raises :
  disk Sample.w !! Sample.t1_path = Some Sample.t1_image
  ∧ load_img_norm Sample.t1_path threshold_default Sample.globals Sample.w
    = (Raise (NameError "normalized_sitk"), Sample.w)
  ∧ opened Sample.w = [].
Proof. split; [|split]; vm_compute; reflexivity. Qed.

(** Each entry of the histogram's list stops at an exception, in the index
    lookup or else in the call, and leaves the world alone. *)
Lemma normalized_values_raises g w name :
  g !! "normalized_sitk" = None →
  ∃ e, normalized_values name g w = (Raise e, w).
Proof.
  intros Hn. unfold normalized_values, database_at.
  destruct (g !! "database") as [o|] eqn:Hd.
  - destruct (as_frame o) as [d|e] eqn:Hf.
    + destruct (Pd.at_ d IDX name) as [p|e] eqn:Hp.
      * exists (NameError "normalized_sitk").
        erewrite bind_ok; last first.
        { erewrite bind_ok; last by apply load_global_bound.
          erewrite bind_ok; last by (unfold lift; rewrite Hf).
          unfold lift. by rewrite Hp. }
        apply bind_raise. unfold load_img_norm.
        by apply bind_raise, load_global_unbound.
      * exists e. apply bind_raise.
        erewrite bind_ok; last by apply load_global_bound.
        erewrite bind_ok; last by (unfold lift; rewrite Hf).
        unfold lift. by rewrite Hp.
    + exists e. apply bind_raise.
      erewrite bind_ok; last by apply load_global_bound.
      apply bind_raise. unfold lift. by rewrite Hf.
  - exists (NameError "database"). apply bind_raise, bind_raise.
    by apply load_global_unbound.
Qed.

(** C6: as shipped the exercise cell is a stub.  In every namespace
    where [normalized_sitk] is unbound (the notebook binds it nowhere),
    a call of [load_img_norm] raises [NameError] for every path and
    threshold, so no call returns a value, and the histogram cell that
    calls it four times ends in an exception. *)
Theorem load_img_norm_never_returns (g : gmap string pyobj) (w : world)
    (image_dir : string) (threshold : Q) :
  g !! "normalized_sitk" = None →
  load_img_norm image_dir threshold g w = (Raise (NameError "normalized_sitk"), w)
  ∧ (∀ r w', load_img_norm image_dir threshold g w ≠ (Ok r, w'))
  ∧ (∃ e, histogram_data g w = (Raise e, w)).
Proof.
  intros Hn.
  assert (Hcall : load_img_norm image_dir threshold g w
                  = (Raise (NameError "normalized_sitk"), w)).
  { unfold load_img_norm. by apply bind_raise, load_global_unbound. }
  split; [done|split].
  - intros r w' Hr. rewrite Hcall in Hr. discriminate.
  - destruct (normalized_values_raises g w "T1" Hn) as [e He].
    exists e. unfold histogram_data. simpl.
    unfold Py.bind. by rewrite He.
Qed.

(** C6, witness: the namespace the notebook's own cells build. *)
Lemma load_img_norm_never_returns_sample :
  Sample.globals !! "normalized_sitk" = None
  ∧ load_img_norm Sample.t1_path threshold_default Sample.globals Sample.w
    = (Raise (NameError "normalized_sitk"), Sample.w).
Proof.
  assert (H : Sample.globals !! "normalized_sitk" = None) by (vm_compute; reflexivity).
  split; [exact H|].
  exact (proj1 (load_img_norm_never_returns Sample.globals Sample.w
                  Sample.t1_path threshold_default H)).
Defined.

Lemma keeps_disk_ret {A} (a : A) : keeps_disk (mret a).
Proof. by intros g w. Qed.

Lemma keeps_disk_lift {A} (r : result A) : keeps_disk (lift r).
Proof. by intros g w. Qed.

Lemma keeps_disk_load_global name : keeps_disk (load_global name).
Proof. intros g w. by rewrite load_global_world. Qed.

Lemma keeps_disk_ReadImage path : keeps_disk (Sitk.ReadImage path).
Proof. intros g w. unfold Sitk.ReadImage. by destruct (disk w !! path). Qed.

Lemma keeps_disk_bind {A B} (m : M A) (k : A → M B) :
  keeps_disk m → (∀ a, keeps_disk (k a)) → keeps_disk (x ← m; k x).
Proof.
  intros Hm Hk g w. unfold mbind, M_bind, Py.bind.
  specialize (Hm g w). destruct (m g w) as [[a|e] w']; simpl in *; [|done].
  by rewrite Hk.
Qed.

Create HintDb disk.

#[local] Hint Resolve keeps_disk_ret keeps_disk_lift keeps_disk_load_global
  keeps_disk_ReadImage : disk.

(** Reading images, as the loading cell does, opens files and leaves the
    disk as it was. *)
Lemma load_single_keeps_disk : keeps_disk load_single.
Proof.
  unfold load_single, database_at.
  repeat (apply keeps_disk_bind; [|intros ?]); auto with disk.
Qed.

(** C10, counterexample: on the sample world the call returns no
    SimpleITK object at all, so none that carries the information of
    the image stored at the path. *)
Lemma load_img_norm_returns_no_image :
  ¬ ∃ img np w',
      load_img_norm Sample.t1_path threshold_default Sample.globals Sample.w
      = (Ok (PyImage img, np), w')
      ∧ information img = information Sample.t1_image.
Proof.
  intros (img & np & w' & Hcall & _).
  vm_compute in Hcall. discriminate.
Qed.

(** C10, as amended: the shipped [load_img_norm] leaves the world
    untouched, whatever its arguments: the image file is not modified,
    it is not even opened.  When the call returns, its first component
    is the object bound to the global [normalized_sitk], as it is: no
    information is copied onto it from the image at [image_dir]. *)
Theorem load_img_norm_frame (g : gmap string pyobj) (w : world)
    (image_dir : string) (threshold : Q) :
  (load_img_norm image_dir threshold g w).2 = w
  ∧ disk (load_img_norm image_dir threshold g w).2 = disk w
  ∧ opened (load_img_norm image_dir threshold g w).2 = opened w
  ∧ ∀ a b w', load_img_norm image_dir threshold g w = (Ok (a, b), w') →
      g !! "normalized_sitk" = Some a.
Proof.
  assert (Hw : (load_img_norm image_dir threshold g w).2 = w).
  { unfold load_img_norm, mbind, M_bind, Py.bind, load_global.
    destruct (g !! "normalized_sitk"); [|done].
    by destruct (g !! "normalized_np"). }
  rewrite Hw. repeat split.
  intros a b w'. unfold load_img_norm, mbind, M_bind, Py.bind, load_global.
  destruct (g !! "normalized_sitk") as [a'|]; [|done].
  destruct (g !! "normalized_np"); [|done].
  unfold mret, M_ret, Py.ret. congruence.
Qed.

(** * The normalization: when it divides by zero, what it achieves *)

Section ZscoreFacts.

Import Zscore.
Local Open Scope R_scope.

Implicit Types (l : list R) (m s c : R).

Lemma total_cons x l : total (x :: l) = x + total l.
Proof. reflexivity. Qed.

Lemma length_pos l : l ≠ [] → 0 < INR (length l).
Proof.
  intros Hl. destruct l as [|x l]; [done|].
  apply lt_0_INR. simpl. lia.
Qed.

Lemma total_constant l c : (∀ x, x ∈ l → x = c) → total l = INR (length l) * c.
Proof.
  induction l as [|x l IH]; intros Hc.
  - simpl. lra.
  - rewrite total_cons, length_cons, S_INR.
    rewrite IH by (intros y Hy; apply Hc; by right).
    rewrite (Hc x) by left. lra.
Qed.

Lemma deviations_cons m x l :
  deviations m (x :: l) = (x - m) * (x - m) :: deviations m l.
Proof. reflexivity. Qed.

Lemma deviations_nonneg m l : 0 <= total (deviations m l).
Proof.
  induction l as [|x l IH].
  - simpl. lra.
  - rewrite deviations_cons, total_cons.
    pose proof (Rle_0_sqr (x - m)) as Hx. unfold Rsqr in Hx. lra.
Qed.

Lemma deviations_zero m l :
  total (deviations m l) = 0 → ∀ x, x ∈ l → x = m.
Proof.
  induction l as [|y l IH]; intros Hz x Hx.
  - by apply elem_of_nil in Hx.
  - rewrite deviations_cons, total_cons in Hz.
    pose proof (deviations_nonneg m l) as Hl.
    pose proof (Rle_0_sqr (y - m)) as Hs. unfold Rsqr in Hs.
    assert (Hy : (y - m) * (y - m) = 0) by lra.
    assert (Hr : total (deviations m l) = 0) by lra.
    apply elem_of_cons in Hx as [->|Hx]; [|by apply IH].
    apply Rmult_integral in Hy. lra.
Qed.

Lemma deviations_constant m l :
  (∀ x, x ∈ l → x = m) → total (deviations m l) = 0.
Proof.
  induction l as [|y l IH]; intros Hc; [done|].
  rewrite deviations_cons, total_cons.
  rewrite IH by (intros x Hx; apply Hc; by right).
  rewrite (Hc y) by left. lra.
Qed.

Lemma total_rescaled m s l :
  s ≠ 0 →
  total ((λ x, (x - m) / s) <$> l) = (total l - INR (length l) * m) / s.
Proof.
  intros Hs. induction l as [|x l IH].
  - simpl. field. done.
  - rewrite fmap_cons, !total_cons, length_cons, S_INR, IH. field. done.
Qed.

Lemma deviations_rescaled m s l :
  s ≠ 0 →
  total (deviations 0 ((λ x, (x - m) / s) <$> l)) = total (deviations m l) / (s * s).
Proof.
  intros Hs. induction l as [|x l IH].
  - simpl. field. done.
  - rewrite fmap_cons, !deviations_cons, !total_cons, IH. field. done.
Qed.

Lemma mean_value l : l ≠ [] → mean l = Value (total l / INR (length l)).
Proof. by destruct l. Qed.

Lemma std_value l :
  l ≠ [] →
  std l = Value (sqrt (total (deviations (total l / INR (length l)) l) / INR (length l))).
Proof. intros Hl. unfold std. by rewrite mean_value. Qed.

(** The deviation is zero exactly on constant samples. *)
Lemma std_zero_iff l s :
  l ≠ [] → std l = Value s → (s = 0 ↔ ∃ c, ∀ x, x ∈ l → x = c).
Proof.
  intros Hl Hs. rewrite std_value in Hs by done. injection Hs as <-.
  pose proof (length_pos l Hl) as Hn.
  set (m := total l / INR (length l)).
  pose proof (deviations_nonneg m l) as Hd.
  split.
  - intros H0. exists m. apply deviations_zero.
    apply sqrt_eq_0 in H0.
    + apply (Rmult_eq_compat_r (INR (length l))) in H0.
      unfold Rdiv in H0. rewrite Rmult_assoc, Rinv_l in H0 by lra. lra.
    + apply Rmult_le_pos; [done|]. left. by apply Rinv_0_lt_compat.
  - intros [c Hc].
    assert (Hm : m = c).
    { unfold m. rewrite (total_constant l c Hc). field. lra. }
    rewrite Hm, deviations_constant by done.
    unfold Rdiv. rewrite Rmult_0_l. apply sqrt_0.
Qed.

Lemma flat_rescale m s (v : volume) :
  flat (rescale m s v) = (λ x, (x - m) / s) <$> flat v.
Proof.
  unfold flat, rescale.
  induction v as [|p v IH]; [done|].
  simpl. rewrite !concat_app, fmap_app, <- IH. f_equal.
  clear IH. induction p as [|r p IH]; [done|].
  simpl. by rewrite fmap_app, <- IH.
Qed.

Lemma masked_zip_fmap (f : R → R) threshold l :
  (snd <$> filter (λ p : R * R, threshold < p.1) (zip l (f <$> l)))
  = f <$> filter (λ x, threshold < x) l.
Proof.
  induction l as [|x l IH]; [done|].
  rewrite fmap_cons. cbn [zip zip_with].
  rewrite (filter_cons (λ p : R * R, threshold < p.1)).
  rewrite (filter_cons (λ x, threshold < x)).
  cbn [fst]. destruct (decide (threshold < x)).
  - by rewrite !fmap_cons, IH.
  - exact IH.
Qed.

Lemma at_masked_rescale m s (v : volume) threshold :
  at_masked v (rescale m s v) threshold
  = (λ x, (x - m) / s) <$> above threshold (flat v).
Proof.
  unfold at_masked, above. rewrite flat_rescale. apply masked_zip_fmap.
Qed.

(** What [normalize] returns, when it returns. *)
Lemma normalize_value (v out : volume) threshold :
  normalize v threshold = Value out →
  ∃ s, above threshold (flat v) ≠ []
       ∧ std (above threshold (flat v)) = Value s ∧ s ≠ 0
       ∧ out = rescale (total (above threshold (flat v))
                        / INR (length (above threshold (flat v)))) s v.
Proof.
  unfold normalize. cbv zeta.
  generalize (above threshold (flat v)). intros masked Hn.
  destruct (decide (masked = [])) as [->|Hne]; [done|].
  rewrite mean_value in Hn by done.
  destruct (std masked) as [s|] eqn:Hs; [|done].
  destruct (Req_dec_T s 0) as [|Hs0]; [done|].
  exists s. injection Hn as <-. done.
Qed.

(** With two distinct values above the threshold the deviation is not
    zero and the volume is rescaled. *)
Lemma normalize_defined (v : volume) threshold x y :
  x ∈ above threshold (flat v) → y ∈ above threshold (flat v) → x ≠ y →
  ∃ s out, std (above threshold (flat v)) = Value s ∧ s ≠ 0
           ∧ normalize v threshold = Value out.
Proof.
  unfold normalize. cbv zeta.
  generalize (above threshold (flat v)). intros masked Hx Hy Hxy.
  assert (Hne : masked ≠ []) by (intros ->; by apply elem_of_nil in Hx).
  destruct (std masked) as [s|] eqn:Hs; last by rewrite std_value in Hs.
  assert (Hs0 : s ≠ 0).
  { intros H0. apply (std_zero_iff masked s Hne Hs) in H0 as [c Hc].
    apply Hxy. by rewrite (Hc x), (Hc y). }
  exists s. rewrite mean_value by done.
  destruct (Req_dec_T s 0); [done|]. eauto.
Qed.

(** C2: the normalization divides by zero exactly when no voxel is
    strictly above the threshold or all of those that are share one
    intensity; with two distinct intensities above the threshold the
    standard deviation is not zero and the normalization has a value. *)
Theorem normalize_divides_by_zero_iff (v : volume) (threshold : R) :
  (normalize v threshold = DivideByZero
   ↔ above threshold (flat v) = []
     ∨ ∃ c, ∀ x, x ∈ above threshold (flat v) → x = c)
  ∧ ((∃ x y, x ∈ above threshold (flat v) ∧ y ∈ above threshold (flat v) ∧ x ≠ y) →
     ∃ s out, std (above threshold (flat v)) = Value s ∧ s ≠ 0
              ∧ normalize v threshold = Value out).
Proof.
  split; last first.
  { intros (x & y & Hx & Hy & Hxy). exact (normalize_defined v threshold x y Hx Hy Hxy). }
  unfold normalize. cbv zeta.
  generalize (above threshold (flat v)). intros masked.
  destruct (decide (masked = [])) as [->|Hne].
  { simpl. split; [by left|done]. }
  rewrite mean_value by done.
  destruct (std masked) as [s|] eqn:Hs; last by rewrite std_value in Hs.
  pose proof (std_zero_iff masked s Hne Hs) as Hz.
  destruct (Req_dec_T s 0) as [H0|H0].
  - split; [|done]. intros _. right. by apply Hz.
  - split; [done|]. intros [->|Hc]; [done|]. exfalso. by apply H0, Hz.
Qed.

(** C3: whenever the normalization has a value, the normalized values at
    the voxels that were strictly above the threshold have mean 0 and
    standard deviation 1. *)
Theorem normalize_standardizes (v out : volume) (threshold : R) :
  normalize v threshold = Value out →
  mean (at_masked v out threshold) = Value 0
  ∧ std (at_masked v out threshold) = Value 1.
Proof.
  intros Hn. apply normalize_value in Hn as (s & Hne & Hs & Hs0 & ->).
  rewrite at_masked_rescale.
  revert Hne Hs. generalize (above threshold (flat v)). intros masked Hne Hs.
  set (n := INR (length masked)).
  set (m := total masked / n).
  pose proof (length_pos masked Hne) as Hn. fold n in Hn.
  assert (Hne' : (λ x, (x - m) / s) <$> masked ≠ []) by by destruct masked.
  assert (Hmean : total ((λ x, (x - m) / s) <$> masked)
                  / INR (length ((λ x, (x - m) / s) <$> masked)) = 0).
  { rewrite total_rescaled, length_fmap by done. fold n. unfold m. field. lra. }
  split.
  - rewrite mean_value by done. by rewrite Hmean.
  - rewrite std_value by done. rewrite Hmean, deviations_rescaled by done.
    rewrite length_fmap. fold n.
    rewrite std_value in Hs by done. injection Hs as Hs. fold n m in Hs.
    pose proof (deviations_nonneg m masked) as Hd.
    assert (Hq : 0 <= total (deviations m masked) / n).
    { apply Rmult_le_pos; [done|]. left. by apply Rinv_0_lt_compat. }
    assert (Hss : s * s = total (deviations m masked) / n).
    { rewrite <- Hs. by apply sqrt_sqrt. }
    assert (Hd0 : total (deviations m masked) ≠ 0).
    { intros H0. apply Hs0. rewrite <- Hs, H0. unfold Rdiv.
      rewrite Rmult_0_l. apply sqrt_0. }
    f_equal. rewrite Hss.
    replace (total (deviations m masked) / (total (deviations m masked) / n) / n)
      with 1 by (field; lra).
    apply sqrt_1.
Qed.

Lemma sample_above : above 0 (flat Sample.volume) = [1; 3].
Proof.
  unfold above, Sample.volume, flat. simpl concat.
  rewrite !filter_cons, filter_nil.
  destruct (decide (0 < 0)) as [H|_]; [lra|].
  destruct (decide (0 < 1)) as [_|H]; [|lra].
  destruct (decide (0 < 3)) as [_|H]; [|lra].
  reflexivity.
Qed.

Lemma sample_normalize : normalize Sample.volume 0 = Value Sample.normalized.
Proof.
  unfold normalize. cbv zeta. rewrite sample_above.
  rewrite std_value, mean_value by done.
  assert (Hm : total [1; 3] / INR (length [1; 3]) = 2).
  { unfold total. simpl. lra. }
  rewrite Hm.
  assert (Hs : sqrt (total (deviations 2 [1; 3]) / INR (length [1; 3])) = 1).
  { transitivity (sqrt 1); [|apply sqrt_1].
    f_equal. unfold total, deviations. simpl. lra. }
  rewrite Hs.
  destruct (Req_dec_T 1 0) as [H|_]; [lra|].
  f_equal. unfold rescale, Sample.volume, Sample.normalized. simpl.
  repeat f_equal; lra.
Qed.

(** C2, witness: the sample volume has the intensities 1 and 3 above the
    threshold 0. *)
Lemma normalize_divides_by_zero_iff_sample :
  (∃ x y, x ∈ above 0 (flat Sample.volume)
          ∧ y ∈ above 0 (flat Sample.volume) ∧ x ≠ y)
  ∧ ∃ s out, std (above 0 (flat Sample.volume)) = Value s ∧ s ≠ 0
             ∧ normalize Sample.volume 0 = Value out.
Proof.
  assert (H : ∃ x y, x ∈ above 0 (flat Sample.volume)
                     ∧ y ∈ above 0 (flat Sample.volume) ∧ x ≠ y).
  { exists 1, 3. rewrite sample_above. repeat split.
    - by left.
    - right. by left.
    - lra. }
  split; [exact H|].
  exact (proj2 (normalize_divides_by_zero_iff Sample.volume 0) H).
Defined.

(** C3, witness: the sample volume normalizes to [-2, -1, 1]; the two
    voxels that were above the threshold now hold -1 and 1. *)
Lemma normalize_standardizes_sample :
  normalize Sample.volume 0 = Value Sample.normalized
  ∧ mean (at_masked Sample.volume Sample.normalized 0) = Value 0
  ∧ std (at_masked Sample.volume Sample.normalized 0) = Value 1.
Proof.
  split; [exact sample_normalize|].
  exact (normalize_standardizes Sample.volume Sample.normalized 0 sample_normalize).
Defined.

End ZscoreFacts.

(** * The dataset index *)

Section PathOrder.

Import Glob.

Lemma ascii_compare_refl c : Ascii.compare c c = Eq.
Proof. unfold Ascii.compare. apply N.compare_refl. Qed.

Lemma append_cons c (s t : string) : (String c s ++ t)%string = String c (s ++ t).
Proof. reflexivity. Qed.

Lemma append_nil (t : string) : ("" ++ t)%string = t.
Proof. reflexivity. Qed.

(** A common prefix does not take part in the comparison. *)
Lemma compare_app_prefix (p x y : string) :
  String.compare (p ++ x) (p ++ y) = String.compare x y.
Proof.
  induction p as [|c p IH]; [done|].
  rewrite !append_cons. simpl. by rewrite ascii_compare_refl.
Qed.

Lemma slash_free_cons c s :
  slash_free (String c s) → c ≠ "/"%char ∧ slash_free s.
Proof.
  simpl. intros [Hc Hs]%andb_prop_elim. split; [|done].
  intros ->. by simpl in Hc.
Qed.

(** Two different directory names are told apart at or before the
    separator that ends the shorter one, so what follows the separator
    never decides their order. *)
Lemma compare_component (a1 a2 r1 r2 r1' r2' : string) :
  slash_free a1 → slash_free a2 → a1 ≠ a2 →
  String.compare (a1 ++ "/" ++ r1) (a2 ++ "/" ++ r2)
  = String.compare (a1 ++ "/" ++ r1') (a2 ++ "/" ++ r2')
  ∧ String.compare (a1 ++ "/" ++ r1) (a2 ++ "/" ++ r2) ≠ Eq.
Proof.
  revert a2. induction a1 as [|c1 a1 IH]; intros [|c2 a2] H1 H2 Hne.
  - done.
  - apply slash_free_cons in H2 as [Hc _].
    rewrite !append_nil, !append_cons. simpl.
    destruct (Ascii.compare "/" c2) eqn:E; [|done..].
    apply Ascii.compare_eq_iff in E. congruence.
  - apply slash_free_cons in H1 as [Hc _].
    rewrite !append_nil, !append_cons. simpl.
    destruct (Ascii.compare c1 "/") eqn:E; [|done..].
    apply Ascii.compare_eq_iff in E. congruence.
  - apply slash_free_cons in H1 as [_ H1].
    apply slash_free_cons in H2 as [_ H2].
    rewrite !append_cons. simpl.
    destruct (Ascii.compare c1 c2) eqn:E; [|done..].
    apply Ascii.compare_eq_iff in E as ->.
    apply IH; [done..|congruence].
Qed.

(** The order of two paths in different patient directories is the
    order of the directories. *)
Lemma dir_path_compare (d1 d2 : string * string) (f1 f2 f1' f2' : string) :
  dir_slash_free d1 → dir_slash_free d2 → d1 ≠ d2 →
  String.compare (dir_path d1 f1) (dir_path d2 f2)
  = String.compare (dir_path d1 f1') (dir_path d2 f2')
  ∧ String.compare (dir_path d1 f1) (dir_path d2 f2) ≠ Eq.
Proof.
  destruct d1 as [g1 p1], d2 as [g2 p2]. intros [Hg1 Hp1] [Hg2 Hp2] Hne.
  unfold dir_path. simpl in *. rewrite !compare_app_prefix.
  destruct (decide (g1 = g2)) as [->|Hg].
  - rewrite !compare_app_prefix.
    apply compare_component; [done..|congruence].
  - by apply compare_component.
Qed.

Lemma dir_path_le (d1 d2 : string * string) (f1 f2 f1' f2' : string) :
  dir_slash_free d1 → dir_slash_free d2 → d1 ≠ d2 →
  String.le (dir_path d1 f1) (dir_path d2 f2) →
  String.le (dir_path d1 f1') (dir_path d2 f2').
Proof.
  intros H1 H2 Hne. unfold String.le, String.leb.
  by destruct (dir_path_compare d1 d2 f1 f2 f1' f2' H1 H2 Hne) as [-> _].
Qed.

Lemma dir_path_inj_dir (d1 d2 : string * string) (f1 f2 : string) :
  dir_slash_free d1 → dir_slash_free d2 →
  dir_path d1 f1 = dir_path d2 f2 → d1 = d2.
Proof.
  intros H1 H2 Heq. destruct (decide (d1 = d2)) as [|Hne]; [done|].
  destruct (dir_path_compare d1 d2 f1 f2 f1 f2 H1 H2 Hne) as [_ Hc].
  exfalso. apply Hc. rewrite Heq. clear.
  induction (dir_path d2 f2) as [|c s IH]; [done|].
  simpl. by rewrite ascii_compare_refl.
Qed.

End PathOrder.

Section IndexFacts.

Import Glob.

Implicit Types (fs : list entry).

Lemma sorted_Permutation l : sorted l ≡ₚ l.
Proof. apply merge_sort_Permutation. Qed.

Lemma sorted_Sorted l : Sorted String.le (sorted l).
Proof. apply (Sorted_merge_sort String.le). Qed.

(** Two sorted lists of strings with the same elements are equal. *)
Lemma sorted_unique (l1 l2 : list string) :
  Sorted String.le l1 → Sorted String.le l2 → l1 ≡ₚ l2 → l1 = l2.
Proof. apply (Sorted_unique String.le). Qed.

Lemma database_ok_inv fs df : database fs = Ok df → df = database_dict fs.
Proof.
  unfold database, Pd.DataFrame. simpl.
  destruct (_ && _); congruence.
Qed.

Lemma database_ok_iff fs :
  is_ok (database fs)
  ↔ length (t1_file_list fs) = length (t2_file_list fs)
    ∧ length (t1_file_list fs) = length (t1ce_file_list fs)
    ∧ length (t1_file_list fs) = length (flair_file_list fs)
    ∧ length (t1_file_list fs) = length (seg_file_list fs).
Proof.
  unfold database, Pd.DataFrame, database_dict, is_ok. cbn [forallb snd].
  destruct (Nat.eqb_spec (length (t2_file_list fs)) (length (t1_file_list fs)));
  destruct (Nat.eqb_spec (length (t1ce_file_list fs)) (length (t1_file_list fs)));
  destruct (Nat.eqb_spec (length (flair_file_list fs)) (length (t1_file_list fs)));
  destruct (Nat.eqb_spec (length (seg_file_list fs)) (length (t1_file_list fs)));
  cbn [andb]; split; try (intros [? ?]; discriminate); try (intros (? & ? & ? & ?); congruence);
  eauto.
Qed.

(** Looking a cell up in the index reads the column's list. *)
Lemma database_dict_at fs name files i p :
  (name, files) ∈ database_dict fs →
  Pd.at_ (database_dict fs) i name = Ok p ↔ files !! i = Some p.
Proof.
  unfold database_dict. rewrite !elem_of_cons, elem_of_nil.
  intros [H|[H|[H|[H|[H|[]]]]]]; injection H as -> ->;
    unfold Pd.at_; cbn [Pd.column String.eqb Ascii.eqb Bool.eqb];
    (destruct (_ !! i); split; congruence).
Qed.

#[local] Instance path_le_dec : RelDecision path_le.
Proof. intros e1 e2. unfold path_le. apply _. Defined.

#[local] Instance path_le_total : Total path_le.
Proof. intros e1 e2. unfold path_le. apply total, _. Qed.

#[local] Instance path_le_trans : Transitive path_le.
Proof. intros e1 e2 e3. unfold path_le. apply transitivity. Qed.

#[local] Instance dir_le_dec : RelDecision dir_le.
Proof. intros d1 d2. unfold dir_le. apply _. Defined.

#[local] Instance dir_le_total : Total dir_le.
Proof. intros d1 d2. unfold dir_le. apply total, _. Qed.

#[local] Instance dir_le_trans : Transitive dir_le.
Proof. intros d1 d2 d3. unfold dir_le. apply transitivity. Qed.

Lemma StronglySorted_fmap_elem {A B} (f : A → B) (R1 : relation A) (R2 : relation B) l :
  (∀ x y, x ∈ l → y ∈ l → R1 x y → R2 (f x) (f y)) →
  StronglySorted R1 l → StronglySorted R2 (f <$> l).
Proof.
  intros Hf Hl. induction Hl as [|x l Hl IH Hx]; csimpl; constructor.
  - apply IH. intros y z Hy Hz. apply Hf; by right.
  - rewrite Forall_fmap. rewrite Forall_forall in Hx |- *.
    intros y Hy. apply Hf; [by left|by right|by apply Hx].
Qed.

Lemma well_named_dir fs e : well_named fs → e ∈ fs → dir_slash_free (dir_of e).
Proof. intros Hfs He. exact (Hfs e He). Qed.

(** Along paths in increasing order the directories increase. *)
Lemma path_le_dir_le fs e1 e2 :
  well_named fs → e1 ∈ fs → e2 ∈ fs → path_le e1 e2 → dir_le (dir_of e1) (dir_of e2).
Proof.
  intros Hfs H1 H2 Hle. unfold dir_le.
  destruct (decide (dir_of e1 = dir_of e2)) as [->|Hne]; [done|].
  eapply dir_path_le; eauto using well_named_dir.
Qed.

(** A column of the index, seen from the directories its files lie in:
    when the matches of a pattern lie in the directories [dirs], the sorted
    list holds, position by position, one file of each directory of
    [dirs] in increasing order. *)
Lemma sorted_glob_by_dir fs suffix dirs :
  well_named fs →
  dir_of <$> filter (λ e, matches suffix e) fs ≡ₚ dirs →
  ∃ names, length names = length dirs
           ∧ sorted (glob fs suffix) = zip_with dir_path (merge_sort dir_le dirs) names.
Proof.
  intros Hfs Hperm. unfold glob.
  set (E := filter (λ e, matches suffix e) fs) in *.
  set (E' := merge_sort path_le E).
  assert (HE' : E' ≡ₚ E) by apply merge_sort_Permutation.
  assert (Hin : ∀ e, e ∈ E' → e ∈ fs).
  { intros e He. rewrite HE' in He. by apply list_elem_of_filter in He as [_ ?]. }
  assert (Hsorted : Sorted path_le E') by apply (Sorted_merge_sort path_le).
  exists (file_name <$> E'). split.
  { by rewrite length_fmap, HE', <- Hperm, length_fmap. }
  assert (Hpaths : sorted (path_of <$> E) = path_of <$> E').
  { apply sorted_unique.
    - apply sorted_Sorted.
    - by apply (Sorted_fmap path_of path_le String.le).
    - by rewrite sorted_Permutation, HE'. }
  assert (Hdirs : dir_of <$> E' = merge_sort dir_le dirs).
  { apply (StronglySorted_unique_strong dir_le).
    - intros d1 d2 [e1 [-> He1]]%list_elem_of_fmap Hd2 H12 H21.
      rewrite merge_sort_Permutation, <- Hperm in Hd2.
      apply list_elem_of_fmap in Hd2 as [e2 [-> He2]].
      apply list_elem_of_filter in He2 as [_ He2].
      eapply dir_path_inj_dir; eauto using well_named_dir.
      by apply (anti_symm String.le).
    - apply (StronglySorted_fmap_elem dir_of path_le).
      + intros x y Hx Hy. apply (path_le_dir_le fs); auto.
      + apply (Sorted_StronglySorted path_le), Hsorted.
    - apply (Sorted_StronglySorted dir_le), (Sorted_merge_sort dir_le).
    - by rewrite merge_sort_Permutation, <- Hperm, HE'. }
  rewrite Hpaths, <- Hdirs.
  rewrite zip_with_fmap_l, zip_with_fmap_r, zip_with_diag. done.
Qed.

(** A column of the index is the sorted list of one of the five
    patterns. *)
Lemma database_dict_column fs name c :
  Pd.column (database_dict fs) name = Some c →
  ∃ suffix, (name, suffix) ∈ modalities ∧ c = sorted (glob fs suffix).
Proof.
  unfold database_dict, modalities. cbn [Pd.column].
  repeat (match goal with
          | |- context [String.eqb ?k name] =>
              destruct (String.eqb_spec k name) as [<-|_];
              [intros [= <-]; eexists; split; [|reflexivity];
               repeat ((by left) || right)|]
          end).
  done.
Qed.

Lemma modalities_elem fs name suffix :
  (name, suffix) ∈ modalities →
  (name, sorted (glob fs suffix)) ∈ database_dict fs
  ∧ suffix ∈ modalities.*2.
Proof.
  unfold modalities. rewrite !elem_of_cons, elem_of_nil.
  intros [H|[H|[H|[H|[H|[]]]]]]; injection H as -> ->;
    (split; [unfold database_dict; set_solver|cbn; set_solver]).
Qed.

End IndexFacts.

(** C8: the index frame is built exactly when the five sorted lists have
    one length; its row [i] then holds the [i]-th path of each sorted
    list.  When every patient directory contributes exactly one file per
    pattern, the frame has one row per patient directory: there are as
    many distinct directories [dirs] of the listing as rows, and row
    [i] of every column lies in directory [i].  Equal lengths alone do not ensure
    that, as a listing with a duplicated and a missing T1 file shows. *)
Theorem database_rows (fs : list Glob.entry) :
  (is_ok (database fs)
   ↔ length (t1_file_list fs) = length (t2_file_list fs)
     ∧ length (t1_file_list fs) = length (t1ce_file_list fs)
     ∧ length (t1_file_list fs) = length (flair_file_list fs)
     ∧ length (t1_file_list fs) = length (seg_file_list fs))
  ∧ (∀ df name suffix,
       database fs = Ok df → (name, suffix) ∈ modalities →
       Sorted String.le (sorted (Glob.glob fs suffix))
       ∧ sorted (Glob.glob fs suffix) ≡ₚ Glob.glob fs suffix
       ∧ ∀ i p, Pd.at_ df i name = Ok p ↔ sorted (Glob.glob fs suffix) !! i = Some p)
  ∧ (Glob.well_named fs → Glob.one_file_per_patient fs modalities.*2 →
     ∃ df (dirs : list (string * string)),
       database fs = Ok df
       ∧ NoDup dirs
       ∧ (∀ d, d ∈ dirs → d ∈ Glob.dir_of <$> fs)
       ∧ length dirs = length (t1_file_list fs)
       ∧ (∀ i name p, Pd.at_ df i name = Ok p → is_Some (dirs !! i))
       ∧ ∀ i d name suffix, dirs !! i = Some d → (name, suffix) ∈ modalities →
           ∃ f, Pd.at_ df i name = Ok (Glob.dir_path d f))
  ∧ (∃ fs' df d1 d2 f1 f2 i,
       Glob.well_named fs' ∧ database fs' = Ok df ∧ d1 ≠ d2
       ∧ Pd.at_ df i "T1" = Ok (Glob.dir_path d1 f1)
       ∧ Pd.at_ df i "T2" = Ok (Glob.dir_path d2 f2)).
Proof.
  split; [apply database_ok_iff|]. split; [|split].
  - intros df name suffix Hdf [Hin _]%(modalities_elem fs).
    apply database_ok_inv in Hdf as ->.
    split; [apply sorted_Sorted|]. split; [apply sorted_Permutation|].
    intros i p. by apply database_dict_at.
  - intros Hfs (dirs & Hnd & Hdirs).
    assert (Hcol : ∀ name suffix, (name, suffix) ∈ modalities →
              ∃ names, length names = length dirs
                ∧ sorted (Glob.glob fs suffix)
                  = zip_with Glob.dir_path (merge_sort Glob.dir_le dirs) names).
    { intros name suffix [_ Hs]%(modalities_elem fs).
      apply sorted_glob_by_dir; auto. }
    assert (Hlen : ∀ name suffix, (name, suffix) ∈ modalities →
              length (sorted (Glob.glob fs suffix)) = length dirs).
    { intros name suffix (names & Hn & ->)%Hcol.
      rewrite length_zip_with, merge_sort_Permutation. lia. }
    assert (Hok : is_ok (database fs)).
    { apply database_ok_iff. unfold t1_file_list, t2_file_list, t1ce_file_list,
        flair_file_list, seg_file_list.
      rewrite (Hlen "T1"), (Hlen "T2"), (Hlen "T1ce"), (Hlen "FLAIR"), (Hlen "Seg")
        by (apply (bool_decide_unpack _); vm_compute; exact I).
      done. }
    destruct Hok as [df Hdf]. exists df, (merge_sort Glob.dir_le dirs).
    split; [done|].
    split; [by rewrite merge_sort_Permutation|].
    split.
    { intros d Hd. rewrite merge_sort_Permutation in Hd.
      rewrite <- (Hdirs "_t1.nii.gz") in Hd
        by (apply (bool_decide_unpack _); vm_compute; exact I).
      apply list_elem_of_fmap in Hd as (e & -> & [_ He]%list_elem_of_filter).
      apply list_elem_of_fmap. eauto. }
    split.
    { rewrite merge_sort_Permutation. symmetry. apply (Hlen "T1").
      apply (bool_decide_unpack _). vm_compute. exact I. }
    split.
    { intros i name p Hat. apply lookup_lt_is_Some.
      rewrite merge_sort_Permutation.
      apply database_ok_inv in Hdf as ->.
      unfold Pd.at_ in Hat.
      destruct (Pd.column (database_dict fs) name) as [c|] eqn:Hc; [|done].
      apply database_dict_column in Hc as (suffix & Hm & ->).
      rewrite <- (Hlen name suffix Hm).
      destruct (sorted (Glob.glob fs suffix) !! i) eqn:Hi; [|done].
      by eapply lookup_lt_Some. }
    intros i d name suffix Hd Hm.
    destruct (Hcol name suffix Hm) as (names & Hn & Hsorted).
    apply database_ok_inv in Hdf as ->.
    destruct (lookup_lt_is_Some_2 names i) as [f Hf].
    { rewrite Hn, <- (merge_sort_Permutation Glob.dir_le dirs).
      by eapply lookup_lt_Some. }
    exists f. apply (database_dict_at fs name (sorted (Glob.glob fs suffix))).
    { by apply modalities_elem. }
    rewrite Hsorted, lookup_zip_with, Hd. simpl. by rewrite Hf.
  - exists Sample.fs_misaligned.
    eexists _, ("HGG", "p1"), ("HGG", "p2"), "p1_t1.nii.gz", "p2_t2.nii.gz", 1%nat.
    split; [|split; [vm_compute; reflexivity|]].
    + intros e He. apply (bool_decide_unpack _).
      revert e He. apply Forall_forall, (bool_decide_unpack _).
      vm_compute. exact I.
    + split; [congruence|]. split; vm_compute; reflexivity.
Qed.

Lemma sample_well_named : Glob.well_named Sample.fs.
Proof.
  intros e He. apply (bool_decide_unpack _).
  revert e He. apply Forall_forall, (bool_decide_unpack _).
  vm_compute. exact I.
Qed.

Lemma sample_one_file_per_patient :
  Glob.one_file_per_patient Sample.fs modalities.*2.
Proof.
  exists (remove_dups (Glob.dir_of <$> Sample.fs)). split.
  - apply NoDup_remove_dups.
  - intros suffix Hs. cbn in Hs.
    rewrite !elem_of_cons, elem_of_nil in Hs.
    destruct Hs as [->|[->|[->|[->|[->|[]]]]]]; vm_compute; reflexivity.
Qed.

(** C8, witness: eleven patient directories with five files each. *)
Lemma database_rows_sample :
  ∃ df (dirs : list (string * string)),
    database Sample.fs = Ok df
    ∧ NoDup dirs
    ∧ (∀ d, d ∈ dirs → d ∈ Glob.dir_of <$> Sample.fs)
    ∧ length dirs = length (t1_file_list Sample.fs)
    ∧ (∀ i name p, Pd.at_ df i name = Ok p → is_Some (dirs !! i))
    ∧ ∀ i d name suffix, dirs !! i = Some d → (name, suffix) ∈ modalities →
        ∃ f, Pd.at_ df i name = Ok (Glob.dir_path d f).
Proof.
  exact (proj1 (proj2 (proj2 (database_rows Sample.fs)))
           sample_well_named sample_one_file_per_patient).
Defined.

(** * Data preparation *)

Section PrepareFacts.

Import Radiomics.

Implicit Types (t : table) (r : row) (key : string * string).

Lemma mean_singleton (v : Q) : mean [v] = Some v.
Proof.
  unfold mean, total. simpl. f_equal.
  destruct v as [n d]. unfold Qdiv, Qmult, Qplus, Qinv. simpl.
  f_equal; lia.
Qed.

(** The two label assignments, one after the other, on a label as read
    from the file. *)
Lemma relabel_twice p l vs :
  (λ pr, if decide (p_label pr = Str "LGG")
         then PRow (p_patient pr) (Int 0) (p_values pr) else pr)
    ((λ pr, if decide (p_label pr = Str "HGG")
            then PRow (p_patient pr) (Int 1) (p_values pr) else pr)
       (PRow p (Str l) vs))
  = PRow p (encoded l) vs.
Proof.
  destruct (decide (l = "HGG")) as [->|Hh]; [by vm_compute|].
  destruct (decide (l = "LGG")) as [->|Hg]; [by vm_compute|].
  unfold encoded. cbn beta.
  repeat (case_decide; simplify_eq/=); done.
Qed.

(** The rows of the prepared frame: one per key of the pivot, with the
    encoded label and the group means in column order. *)
Lemma prepare_rows t :
  prepared_rows (prepare t)
  = (λ key, PRow key.1 (encoded key.2)
                 ((λ c, mean (group t key c.1 c.2)) <$> columns (pivot_table t)))
    <$> keys t.
Proof.
  unfold prepare, reset_index, set_label_where, pivot_table. cbv zeta. simpl.
  rewrite zip_with_fmap_r, zip_with_diag, <- !list_fmap_compose.
  apply Forall_fmap_ext_1, Forall_forall. intros key _.
  apply relabel_twice.
Qed.

Lemma prepare_column_names t :
  column_names (prepare t) = joined (columns (pivot_table t)).
Proof. reflexivity. Qed.

Lemma keys_Permutation t :
  keys t ≡ₚ remove_dups ((λ r, (patient r, label r)) <$> rows t).
Proof. apply merge_sort_Permutation. Qed.

Lemma keys_NoDup t : NoDup (keys t).
Proof. rewrite keys_Permutation. apply NoDup_remove_dups. Qed.

Lemma keys_elem t key :
  key ∈ keys t ↔ ∃ r, r ∈ rows t ∧ key = (patient r, label r).
Proof.
  rewrite keys_Permutation, elem_of_remove_dups, list_elem_of_fmap.
  split; intros (r & H1 & H2); eauto.
Qed.

Lemma sequences_elem t s : s ∈ sequences t ↔ s ∈ sequence <$> rows t.
Proof.
  unfold sequences, sorted.
  by rewrite merge_sort_Permutation, elem_of_remove_dups.
Qed.

Lemma sequences_NoDup t : NoDup (sequences t).
Proof.
  unfold sequences, sorted. rewrite merge_sort_Permutation. apply NoDup_remove_dups.
Qed.

Lemma columns_elem t f s :
  (f, s) ∈ columns (pivot_table t) ↔ f ∈ feature_names t ∧ s ∈ sequence <$> rows t.
Proof.
  unfold pivot_table. simpl. rewrite list_elem_of_bind. split.
  - intros (f' & Hin & Hf). apply list_elem_of_bind in Hin as (s' & Hin & Hs).
    apply list_elem_of_singleton in Hin as [= -> ->].
    unfold sorted in Hf. rewrite merge_sort_Permutation in Hf.
    by rewrite <- sequences_elem.
  - intros [Hf Hs]. exists f. split.
    + apply list_elem_of_bind. exists s. split; [by apply list_elem_of_singleton|].
      by apply sequences_elem.
    + unfold sorted. by rewrite merge_sort_Permutation.
Qed.

Lemma columns_NoDup t : NoDup (feature_names t) → NoDup (columns (pivot_table t)).
Proof.
  intros Hf. unfold pivot_table. simpl. apply NoDup_bind.
  - intros f1 f2 c _ _ H1 H2.
    apply list_elem_of_bind in H1 as (s1 & H1 & _).
    apply list_elem_of_bind in H2 as (s2 & H2 & _).
    apply list_elem_of_singleton in H1, H2. congruence.
  - intros f _. apply NoDup_bind.
    + intros s1 s2 c _ _ H1 H2. apply list_elem_of_singleton in H1, H2. congruence.
    + intros s _. apply NoDup_singleton.
    + apply sequences_NoDup.
  - unfold sorted. by rewrite merge_sort_Permutation.
Qed.

Lemma index_of_elem name names i : index_of name names = Some i → name ∈ names.
Proof.
  revert i. induction names as [|n names IH]; intros i; [done|].
  simpl. destruct (String.eqb_spec n name) as [->|_]; [left|].
  destruct (index_of name names); [|done]. intros _. right. by eapply IH.
Qed.

Lemma value_elem t r f v : value t r f = Some v → f ∈ feature_names t.
Proof.
  unfold value. destruct (index_of f (feature_names t)) eqn:E; [|done].
  intros _. by eapply index_of_elem.
Qed.

Lemma index_of_is_Some name names :
  name ∈ names → ∃ i, index_of name names = Some i ∧ (i < length names)%nat.
Proof.
  induction names as [|n names IH]; [by intros ?%elem_of_nil|].
  intros Hin. simpl. destruct (String.eqb_spec n name) as [->|Hne].
  - exists 0. split; [done|]. simpl. lia.
  - apply elem_of_cons in Hin as [->|Hin]; [done|].
    destruct (IH Hin) as (i & -> & Hi). exists (S i). split; [done|]. simpl. lia.
Qed.

(** In a complete table every row has a value for every feature. *)
Lemma value_complete t r f :
  complete t → r ∈ rows t → f ∈ feature_names t → is_Some (value t r f).
Proof.
  intros Hc Hr Hf. unfold complete in Hc. rewrite Forall_forall in Hc.
  destruct (index_of_is_Some f (feature_names t) Hf) as (i & Hi & Hlt).
  unfold value. rewrite Hi. simpl. apply lookup_lt_is_Some.
  by rewrite (Hc r Hr).
Qed.

Lemma filter_none {A} (P : A → Prop) `{!∀ x, Decision (P x)} (l : list A) :
  (∀ y, y ∈ l → ¬ P y) → filter P l = [].
Proof.
  induction l as [|a l IH]; intros Hl; [done|].
  rewrite filter_cons_False by (apply Hl; left).
  apply IH. intros y Hy. apply Hl. by right.
Qed.

(** Where a key identifies the elements of a list, a test that pins the
    key down keeps one element at most. *)
Lemma filter_unique {A K} (f : A → K) (P : A → Prop) `{!∀ x, Decision (P x)}
    (l : list A) (x : A) :
  NoDup (f <$> l) → x ∈ l → P x → (∀ y, P y → f y = f x) → filter P l = [x].
Proof.
  intros Hnd Hx HPx Hkey. induction l as [|a l IH]; [by apply elem_of_nil in Hx|].
  rewrite fmap_cons in Hnd. apply NoDup_cons in Hnd as [Ha Hnd].
  apply elem_of_cons in Hx as [->|Hx].
  - rewrite filter_cons_True by done. f_equal. apply filter_none.
    intros y Hy HPy. apply Ha. rewrite <- (Hkey y HPy).
    apply list_elem_of_fmap. eauto.
  - rewrite filter_cons_False; [by apply IH|].
    intros HPa. apply Ha. rewrite (Hkey a HPa).
    apply list_elem_of_fmap. eauto.
Qed.

(** With one row per patient and sequence, the group of a row holds the
    value of that row and nothing else. *)
Lemma group_of_row t r f v :
  NoDup ((λ r, (patient r, sequence r)) <$> rows t) →
  r ∈ rows t → value t r f = Some v →
  group t (patient r, label r) f (sequence r) = [v].
Proof.
  intros Hnd Hr Hv. unfold group.
  rewrite (filter_unique (λ r, (patient r, sequence r)) _ (rows t) r); try done.
  - simpl. by rewrite Hv.
  - intros y [[= Hp _] Hs]. by rewrite Hp, Hs.
Qed.

End PrepareFacts.



Lemma sample_table_labels :
  ∀ r r', r ∈ Radiomics.rows Sample.table → r' ∈ Radiomics.rows Sample.table →
    Radiomics.patient r = Radiomics.patient r' →
    Radiomics.label r = Radiomics.label r'.
Proof.
  assert (H : Forall (λ r, Forall (λ r', Radiomics.patient r = Radiomics.patient r' →
                Radiomics.label r = Radiomics.label r') (Radiomics.rows Sample.table))
                (Radiomics.rows Sample.table)).
  { apply (bool_decide_unpack _). vm_compute. exact I. }
  intros r r' Hr Hr'. rewrite Forall_forall in H.
  specialize (H r Hr). rewrite Forall_forall in H. by apply H.
Qed.


(** * Labels on the confusion matrix *)

Section LabelFacts.

Import Radiomics.
Local Open Scope Z_scope.

Variable int_of_str : string → option Z.

Lemma encoded_grade l : grade l → encoded l = Int (class_of l).
Proof. intros [->| ->]; reflexivity. Qed.

Lemma astype_int_grades (labels : list string) :
  Forall grade labels →
  astype_int_all int_of_str (encoded <$> labels) = Ok (class_of <$> labels).
Proof.
  induction 1 as [|l labels Hl _ IH]; [done|].
  rewrite !fmap_cons. cbn [astype_int_all]. rewrite IH, (encoded_grade l Hl). done.
Qed.

Lemma class_of_values (labels : list string) z :
  z ∈ class_of <$> labels → z = 0 ∨ z = 1.
Proof.
  intros [l [-> _]]%list_elem_of_fmap. unfold class_of. case_decide; auto.
Qed.

(** The classes a classifier keeps when it saw both grades. *)
Lemma unique_both_grades (labels : list string) :
  "HGG" ∈ labels → "LGG" ∈ labels → Sk.unique (class_of <$> labels) = [0; 1].
Proof.
  intros Hh Hl. unfold Sk.unique. apply (Sorted_unique Z.le).
  - apply (Sorted_merge_sort Z.le).
  - repeat constructor. done.
  - rewrite merge_sort_Permutation. apply NoDup_Permutation.
    + apply NoDup_remove_dups.
    + apply (bool_decide_unpack _). vm_compute. exact I.
    + intros z. rewrite elem_of_remove_dups. split.
      * intros [->| ->]%class_of_values; [left|right; left].
      * rewrite !elem_of_cons, elem_of_nil. intros [->|[->|[]]].
        -- by apply (list_elem_of_fmap_2 class_of _ _ Hl).
        -- by apply (list_elem_of_fmap_2 class_of _ _ Hh).
Qed.

Lemma rows_at_fmap {A B} (f : A → B) (idx : list nat) (l : list A) :
  rows_at idx (f <$> l) = f <$> rows_at idx l.
Proof.
  unfold rows_at. induction idx as [|i idx IH]; [done|].
  simpl. rewrite list_lookup_fmap.
  destruct (l !! i); simpl; [f_equal|]; apply IH.
Qed.

Lemma rows_at_elem {A} (idx : list nat) (l : list A) (x : A) :
  x ∈ rows_at idx l → x ∈ l.
Proof.
  unfold rows_at. intros (i & _ & Hi)%list_elem_of_omap.
  by eapply list_elem_of_lookup_2.
Qed.

(** Among graded samples, counting by class is counting by grade. *)
Lemma hits_by_grade (labels : list string) (preds : list Z) (name : string) b :
  Forall grade labels → grade name →
  Sk.hits (class_of <$> labels) preds (class_of name) b
  = length (filter (λ p, p.1 = name ∧ p.2 = b) (zip labels preds)).
Proof.
  intros Hl Hn. unfold Sk.hits. revert preds.
  induction Hl as [|l labels Hg _ IH]; intros [|y preds]; try done.
  rewrite fmap_cons. cbn [zip zip_with].
  rewrite !filter_cons. cbn [fst snd].
  assert (Hiff : class_of l = class_of name ↔ l = name).
  { destruct Hg as [->| ->], Hn as [->| ->]; by vm_compute. }
  destruct (decide (class_of l = class_of name ∧ y = b)) as [[H1 H2]|Hno].
  - rewrite decide_True by (split; [by apply Hiff|done]).
    simpl. f_equal. apply IH.
  - rewrite decide_False by (intros [H1 H2]; apply Hno; split; [by apply Hiff|done]).
    apply IH.
Qed.

End LabelFacts.

(** C7: end to end, from the table to the plot.  On a table with a
    number in every feature cell whose labels are the two grades, the
    data preparation and [astype(int)] turn the label of every row of
    the frame into its class, LGG into 0 and HGG into 1.  Whatever rows
    [train_test_split] deals to the training and the test part, when the
    training rows hold both grades, [classes_] is [0, 1], and the plot
    labelled ['LGG', 'HGG'] shows, in the row named [a] and the column
    named [b], the number of test rows whose label in the table is [a]
    and which were predicted as the class of grade [b]: the names on the
    plot are the grades of the classes they stand next to. *)
Theorem display_labels_match_classes (int_of_str : string → option Z)
    (t : Radiomics.table) (train test : list nat) (predictions : list Z) :
  complete t →
  (∀ r, r ∈ Radiomics.rows t → grade (Radiomics.label r)) →
  "HGG" ∈ rows_at train (Radiomics.index (Radiomics.pivot_table t)).*2 →
  "LGG" ∈ rows_at train (Radiomics.index (Radiomics.pivot_table t)).*2 →
  length predictions
  = length (rows_at test (Radiomics.index (Radiomics.pivot_table t)).*2) →
  ∃ y,
    y_data int_of_str (Radiomics.prepare t) = Ok y
    ∧ y = class_of <$> (Radiomics.index (Radiomics.pivot_table t)).*2
    ∧ Sk.unique (rows_at train y) = [0; 1]%Z
    ∧ Radiomics.encoded <$> display_labels
      = Radiomics.Int <$> Sk.unique (rows_at train y)
    ∧ confusion_cell (Sk.unique (rows_at train y)) (rows_at test y) predictions
      = Ok ((λ a, (a, (λ b, (b, graded_hits
                                  (rows_at test
                                     (Radiomics.index (Radiomics.pivot_table t)).*2)
                                  predictions a (class_of b)))
                        <$> display_labels))
              <$> display_labels).
Proof.
  intros _ Hgrades Hh Hl Hlen.
  change (Radiomics.index (Radiomics.pivot_table t)) with (Radiomics.keys t) in *.
  set (labels := (Radiomics.keys t).*2) in *.
  assert (Hall : Forall grade labels).
  { apply Forall_forall.
    intros l [key [-> (r & Hr & ->)%keys_elem]]%list_elem_of_fmap.
    by apply Hgrades. }
  assert (Hsel : ∀ idx, Forall grade (rows_at idx labels)).
  { intros idx. apply Forall_forall. intros l Hin.
    rewrite Forall_forall in Hall. apply Hall. by eapply rows_at_elem. }
  exists (class_of <$> labels).
  split.
  { unfold y_data. rewrite prepare_rows, <- list_fmap_compose.
    change (Radiomics.p_label ∘ _)
      with (Radiomics.encoded ∘ (snd : string * string → string)).
    rewrite list_fmap_compose. by apply astype_int_grades. }
  split; [done|].
  rewrite !rows_at_fmap.
  rewrite (unique_both_grades (rows_at train labels) Hh Hl).
  split; [done|]. split; [done|].
  unfold confusion_cell, Sk.confusion_matrix.
  rewrite decide_True by (by rewrite length_fmap).
  rewrite decide_False by done.
  rewrite decide_False; last first.
  { intros [Hne Hno]. destruct (rows_at test labels) as [|l ls] eqn:E; [done|].
    pose proof (Hsel test) as Htest. rewrite E in Htest.
    apply Forall_cons in Htest as [Hg _].
    rewrite !Forall_cons in Hno. destruct Hno as (H0 & H1 & _).
    destruct Hg as [->| ->]; [apply H1|apply H0]; rewrite fmap_cons; left. }
  cbn [mbind result_bind rbind fmap list_fmap].
  unfold display_labels, graded_hits. cbn [fmap list_fmap].
  rewrite <- !(hits_by_grade (rows_at test labels) predictions)
    by ((by apply Hsel) || (by left) || (by right)).
  reflexivity.
Qed.

(** C7, witness: the sample table, both of its rows dealt to the
    training part and to the test part; no label needs [int] to parse
    text. *)
Lemma display_labels_match_classes_sample :
  ∃ y,
    y_data (λ _, None) (Radiomics.prepare Sample.table) = Ok y
    ∧ y = class_of <$> (Radiomics.index (Radiomics.pivot_table Sample.table)).*2
    ∧ Sk.unique (rows_at [0; 1]%nat y) = [0; 1]%Z
    ∧ Radiomics.encoded <$> display_labels
      = Radiomics.Int <$> Sk.unique (rows_at [0; 1]%nat y)
    ∧ confusion_cell (Sk.unique (rows_at [0; 1]%nat y)) (rows_at [1; 0]%nat y)
        [1; 1]%Z
      = Ok ((λ a, (a, (λ b, (b, graded_hits
                                  (rows_at [1; 0]%nat
                                     (Radiomics.index
                                        (Radiomics.pivot_table Sample.table)).*2)
                                  [1; 1]%Z a (class_of b)))
                        <$> display_labels))
              <$> display_labels).
Proof.
  apply (display_labels_match_classes (λ _, None) Sample.table
           [0; 1]%nat [1; 0]%nat [1; 1]%Z).
  - unfold complete. repeat constructor.
  - apply Forall_forall. repeat constructor; ((by left) || (by right)).
  - apply (bool_decide_unpack _). vm_compute. exact I.
  - apply (bool_decide_unpack _). vm_compute. exact I.
  - vm_compute. reflexivity.
Defined.

(** * Further properties of the dataset index *)

Section IndexMore.

Import Glob.

Implicit Types (fs : list entry) (e : entry).

Lemma ends_with_unfold suffix s :
  ends_with suffix s
  = if String.eqb suffix s then true
    else match s with
         | EmptyString => false
         | String _ s' => ends_with suffix s'
         end.
Proof. by destruct s. Qed.

(** [ends_with] is the suffix relation. *)
Lemma ends_with_spec suffix s :
  ends_with suffix s = true ↔ ∃ stem, s = (stem ++ suffix)%string.
Proof.
  induction s as [|c s IH]; rewrite ends_with_unfold.
  - destruct (String.eqb_spec suffix "") as [->|Hne].
    + split; [by exists ""|done].
    + split; [done|]. intros [[|c stem] Hs]; [by rewrite append_nil in Hs|].
      by rewrite append_cons in Hs.
  - destruct (String.eqb_spec suffix (String c s)) as [->|Hne].
    + split; [by exists ""|done].
    + rewrite IH. split.
      * intros [stem ->]. by exists (String c stem).
      * intros [[|c' stem] Hs].
        -- by rewrite append_nil in Hs.
        -- rewrite append_cons in Hs. injection Hs as _ ->. by exists stem.
Qed.

Lemma ends_with_app stem suffix s :
  ends_with suffix s = true → ends_with suffix (stem ++ s) = true.
Proof.
  rewrite !ends_with_spec. intros [stem' ->]. exists (stem ++ stem')%string.
  induction stem as [|c stem IH]; [done|]. by rewrite !append_cons, IH.
Qed.

(** Of two suffixes of one string, one is a suffix of the other. *)
Lemma ends_with_both s1 s2 s :
  ends_with s1 s = true → ends_with s2 s = true →
  ends_with s1 s2 = true ∨ ends_with s2 s1 = true.
Proof.
  rewrite !ends_with_spec. intros [p1 H1] [p2 H2]. subst s. revert p2 H2.
  induction p1 as [|c p1 IH]; intros [|c' p2] H.
  - rewrite !append_nil in H. left. exists "". by rewrite append_nil.
  - rewrite append_nil in H. right. by exists (String c' p2).
  - rewrite append_nil in H. left. by exists (String c p1).
  - rewrite !append_cons in H. injection H as _ H. by apply (IH p2).
Qed.

Lemma matches_spec suffix e :
  matches suffix e
  ↔ hidden (grade_dir e) = false ∧ hidden (patient_dir e) = false
    ∧ hidden (file_name e) = false
    ∧ ∃ stem, file_name e = (stem ++ suffix)%string.
Proof.
  unfold matches, star. rewrite <- ends_with_spec.
  assert (Hany : ∀ s, ends_with "" s = true).
  { intros s. apply ends_with_spec. exists s.
    induction s as [|c s IH]; [done|]. by rewrite append_cons, <- IH. }
  rewrite !Hany.
  destruct (hidden (grade_dir e)), (hidden (patient_dir e)),
    (hidden (file_name e)), (ends_with suffix (file_name e)); simpl;
    (split; [intros H; by repeat split|intros (? & ? & ? & ?); done]).
Qed.

(** X1: a column of the index holds exactly the paths of the listed
    files that lie in no hidden directory, are not hidden themselves and
    whose name ends in the pattern's suffix; it has one entry per such
    file. *)
Theorem index_column_elem fs suffix p :
  (p ∈ sorted (glob fs suffix)
   ↔ ∃ e, e ∈ fs ∧ p = path_of e
          ∧ hidden (grade_dir e) = false ∧ hidden (patient_dir e) = false
          ∧ hidden (file_name e) = false
          ∧ ∃ stem, file_name e = (stem ++ suffix)%string)
  ∧ length (sorted (glob fs suffix)) = length (filter (λ e, matches suffix e) fs).
Proof.
  split.
  - unfold sorted, glob. rewrite merge_sort_Permutation, list_elem_of_fmap.
    split.
    + intros (e & -> & [Hm He]%list_elem_of_filter). exists e.
      apply matches_spec in Hm as (? & ? & ? & ?). by repeat split.
    + intros (e & He & -> & Hm). exists e. split; [done|].
      apply list_elem_of_filter. split; [|done]. by apply matches_spec.
  - unfold sorted, glob. by rewrite merge_sort_Permutation, length_fmap.
Qed.

Lemma glob_ends_with fs suffix p :
  p ∈ sorted (glob fs suffix) → ends_with suffix p = true.
Proof.
  unfold sorted, glob. rewrite merge_sort_Permutation, list_elem_of_fmap.
  intros (e & -> & [Hm _]%list_elem_of_filter).
  apply matches_spec in Hm as (_ & _ & _ & Hs). apply ends_with_spec in Hs.
  unfold path_of, dir_path. by repeat apply ends_with_app.
Qed.

(** X2: no path stands in two columns of the index: the five patterns
    exclude each other, so a T1ce file is never taken for a T1 file. *)
Theorem index_columns_disjoint fs name1 suffix1 name2 suffix2 p :
  (name1, suffix1) ∈ modalities → (name2, suffix2) ∈ modalities →
  name1 ≠ name2 →
  p ∈ sorted (glob fs suffix1) → p ∉ sorted (glob fs suffix2).
Proof.
  intros H1 H2 Hne Hp1%glob_ends_with Hp2%glob_ends_with.
  pose proof (ends_with_both _ _ _ Hp1 Hp2) as Hboth.
  unfold modalities in H1, H2. rewrite !elem_of_cons, elem_of_nil in H1, H2.
  destruct H1 as [H1|[H1|[H1|[H1|[H1|[]]]]]]; injection H1 as -> ->;
  destruct H2 as [H2|[H2|[H2|[H2|[H2|[]]]]]]; injection H2 as -> ->;
    try done; vm_compute in Hboth; by destruct Hboth.
Qed.

(** X3: the index does not depend on the order in which the directory
    scan lists the files. *)
Theorem database_order_independent fs fs' :
  fs ≡ₚ fs' → database fs = database fs'.
Proof.
  intros Hperm.
  assert (Hcol : ∀ suffix, sorted (glob fs suffix) = sorted (glob fs' suffix)).
  { intros suffix. apply sorted_unique; [apply sorted_Sorted..|].
    unfold glob. by rewrite !sorted_Permutation, Hperm. }
  unfold database, database_dict, t1_file_list, t2_file_list, t1ce_file_list,
    flair_file_list, seg_file_list.
  by rewrite !Hcol.
Qed.

End IndexMore.

(** X2, witness: the T1 file of row [IDX] is not in the T1ce column. *)
Lemma index_columns_disjoint_sample :
  Sample.t1_path ∈ sorted (Glob.glob Sample.fs "_t1.nii.gz")
  ∧ Sample.t1_path ∉ sorted (Glob.glob Sample.fs "_t1ce.nii.gz").
Proof.
  assert (H : Sample.t1_path ∈ sorted (Glob.glob Sample.fs "_t1.nii.gz")).
  { apply (bool_decide_unpack _). vm_compute. exact I. }
  split; [exact H|].
  apply (index_columns_disjoint Sample.fs "T1" "_t1.nii.gz" "T1ce" "_t1ce.nii.gz");
    [apply (bool_decide_unpack _); vm_compute; exact I..|exact H].
Defined.

(** X3, witness: the sample listing read backwards. *)
Lemma database_order_independent_sample :
  database Sample.fs = database (reverse Sample.fs).
Proof.
  apply database_order_independent. symmetry. apply reverse_Permutation.
Defined.

(** * The loading cell *)

Lemma database_at_frame g w df i name :
  g !! "database" = Some (PyFrame df) →
  database_at i name g w = (Pd.at_ df i name, w).
Proof.
  intros Hg. unfold database_at.
  erewrite bind_ok; last by apply load_global_bound.
  by erewrite bind_ok.
Qed.

(** X4: with ten patients or fewer in the index, the loading cell stops
    at [database.at[IDX,'T1']] with [KeyError] and opens no file. *)
Theorem load_single_short_index (fs : list Glob.entry) (df : frame)
    (g : gmap string pyobj) (w : world) :
  database fs = Ok df → g !! "database" = Some (PyFrame df) →
  (length (t1_file_list fs) ≤ IDX)%nat →
  load_single g w = (Raise (KeyError "10"), w).
Proof.
  intros Hdf Hg Hlen. apply database_ok_inv in Hdf as ->.
  unfold load_single. apply bind_raise.
  rewrite (database_at_frame g w _ _ _ Hg).
  unfold Pd.at_, database_dict. cbn [Pd.column String.eqb Ascii.eqb Bool.eqb].
  by rewrite lookup_ge_None_2.
Qed.

(** X4, witness: an index of two patients. *)
Lemma load_single_short_index_sample :
  load_single Sample.globals_small Sample.w = (Raise (KeyError "10"), Sample.w).
Proof.
  apply (load_single_short_index Sample.fs_small (database_dict Sample.fs_small));
    vm_compute; (reflexivity || lia).
Defined.

(** X5: when row [IDX] of the index names a T1 path [p] and a
    segmentation path [q], the loading cell opens [p], then [q], and
    returns both images with their arrays; a missing file stops it with
    [RuntimeError], a missing segmentation after the T1 image was
    opened.  The files themselves are left as they were. *)
Theorem load_single_reads (g : gmap string pyobj) (w : world) (df : frame)
    (p q : string) :
  g !! "database" = Some (PyFrame df) →
  Pd.at_ df IDX "T1" = Ok p → Pd.at_ df IDX "Seg" = Ok q →
  load_single g w =
    match disk w !! p, disk w !! q with
    | Some img, Some seg =>
        (Ok ((img, voxels img), (seg, voxels seg)),
         World (disk w) (opened w ++ [p; q]))
    | Some img, None =>
        (Raise (RuntimeError q), World (disk w) (opened w ++ [p]))
    | None, _ => (Raise (RuntimeError p), w)
    end.
Proof.
  intros Hg Hp Hq. unfold load_single.
  erewrite bind_ok; last by rewrite (database_at_frame g w df), Hp.
  destruct (disk w !! p) as [img|] eqn:Hdp.
  - erewrite bind_ok; last by (unfold Sitk.ReadImage; rewrite Hdp).
    erewrite bind_ok; last by rewrite (database_at_frame g _ df), Hq.
    destruct (disk w !! q) as [seg|] eqn:Hdq.
    + erewrite bind_ok; last by (unfold Sitk.ReadImage; simpl; rewrite Hdq).
      simpl. by rewrite <- app_assoc.
    + apply bind_raise. unfold Sitk.ReadImage. simpl. by rewrite Hdq.
  - apply bind_raise. unfold Sitk.ReadImage. by rewrite Hdp.
Qed.

(** X5, witness: both files of row [IDX] are on the sample disk. *)
Lemma load_single_reads_sample :
  load_single Sample.globals Sample.w
  = (Ok ((Sample.t1_image, voxels Sample.t1_image),
         (Sample.seg_image, voxels Sample.seg_image)),
     World (disk Sample.w) [Sample.t1_path; Sample.seg_path]).
Proof.
  exact (load_single_reads Sample.globals Sample.w Sample.index
           Sample.t1_path Sample.seg_path
           ltac:(vm_compute; reflexivity) ltac:(vm_compute; reflexivity)
           ltac:(vm_compute; reflexivity)).
Defined.

(** * The grid of slices *)

Section GridFacts.

Import Plot.
Local Open Scope nat_scope.

Variables img seg : ndarray.

Lemma after_turns_length j : j ≤ 20 → length (after_turns img seg j) = 20.
Proof.
  intros Hj. unfold after_turns.
  rewrite length_app, length_fmap, length_seq, length_replicate. lia.
Qed.

Lemma after_turns_lookup j : j < 20 → after_turns img seg j !! j = Some blank.
Proof.
  intros Hj. unfold after_turns.
  rewrite lookup_app_r; rewrite length_fmap, length_seq; [|lia].
  rewrite Nat.sub_diag. apply lookup_replicate_2. lia.
Qed.

Lemma after_turns_insert j :
  j < 20 → <[j := drawn img seg j]> (after_turns img seg j) = after_turns img seg (S j).
Proof.
  intros Hj. unfold after_turns.
  rewrite insert_app_r_alt; rewrite length_fmap, length_seq; [|lia].
  rewrite Nat.sub_diag.
  replace (20 - j) with (S (20 - S j)) by lia.
  rewrite seq_S, fmap_app. simpl. by rewrite <- app_assoc.
Qed.

Lemma eight_times_div k : 8 * k / 8 = k.
Proof. rewrite Nat.mul_comm. apply Nat.div_mul. lia. Qed.

(** A turn on a blank axes, with both slices in range. *)
Lemma draw_blank k (fig : list axes) :
  fig !! k = Some blank → 8 * k < length img → 8 * k < length seg →
  draw img seg (8 * k) fig = (<[k := drawn img seg k]> fig, None).
Proof.
  intros Hk Hi Hs. unfold draw, drawn. cbv zeta. rewrite eight_times_div, Hk.
  destruct (img !! (8 * k)) as [s|] eqn:Himg;
    last by (apply lookup_ge_None in Himg; unfold slice in *; lia).
  destruct (seg !! (8 * k)) as [s'|] eqn:Hseg;
    last by (apply lookup_ge_None in Hseg; unfold slice in *; lia).
  f_equal.
  rewrite !list_alter_alter_eq, list_insert_alter.
  apply list_alter_ext; [|done]. intros a Ha.
  rewrite Hk in Ha. by injection Ha as <-.
Qed.

(** A turn past the last axes. *)
Lemma draw_past k (fig : list axes) :
  length fig ≤ k →
  draw img seg (8 * k) fig = (fig, Some (IndexError k (length fig))).
Proof.
  intros Hk. unfold draw. cbv zeta.
  by rewrite eight_times_div, lookup_ge_None_2.
Qed.

Lemma draw_all_cons i (l : list nat) (fig : list axes) :
  draw_all img seg (i :: l) fig
  = match draw img seg i fig with
    | (fig', None) => draw_all img seg l fig'
    | stopped => stopped
    end.
Proof. reflexivity. Qed.

Lemma draw_all_app (l1 l2 : list nat) (fig : list axes) :
  draw_all img seg (l1 ++ l2) fig
  = match draw_all img seg l1 fig with
    | (fig', None) => draw_all img seg l2 fig'
    | stopped => stopped
    end.
Proof.
  revert fig. induction l1 as [|i l1 IH]; intros fig; [done|].
  simpl. destruct (draw img seg i fig) as [fig' [e|]]; [done|]. apply IH.
Qed.

(** [c] turns in a row, while axes and slices last. *)
Lemma draw_all_fill c j :
  j + c ≤ 20 → (∀ k, k < j + c → 8 * k < length img) →
  length img ≤ length seg →
  draw_all img seg ((λ k, 8 * k) <$> seq j c) (after_turns img seg j)
  = (after_turns img seg (j + c), None).
Proof.
  revert j. induction c as [|c IH]; intros j Hj Hn Hseg.
  - simpl. by rewrite Nat.add_0_r.
  - rewrite <- cons_seq, fmap_cons, draw_all_cons, draw_blank.
    + rewrite after_turns_insert by lia.
      rewrite IH; [|lia| |done].
      * by replace (S j + c) with (j + S c) by lia.
      * intros k Hk. apply Hn. lia.
    + apply after_turns_lookup. lia.
    + apply Hn. lia.
    + specialize (Hn j). lia.
Qed.

Lemma turns_bound n : (n + 7) / 8 ≤ 20 ↔ n ≤ 160.
Proof.
  pose proof (Nat.div_mod_eq (n + 7) 8).
  pose proof (Nat.mod_upper_bound (n + 7) 8). lia.
Qed.

Lemma turns_in_range n k : k < (n + 7) / 8 ↔ 8 * k < n.
Proof.
  pose proof (Nat.div_mod_eq (n + 7) 8).
  pose proof (Nat.mod_upper_bound (n + 7) 8). lia.
Qed.

(** X6: the loop over every eighth slice fits the 5 x 4 grid exactly
    when the volume has at most 160 slices.  Then axes [k] shows slice
    [8 * k] under its segmentation, with the slice number as title and
    the frame off, for every [k] below the number of turns, and the
    other axes stay blank.  With more than 160 slices the loop fills all
    twenty axes and then raises [IndexError] at axes 20. *)
Theorem slice_grid_bounds :
  length img ≤ length seg →
  ((slice_grid img seg).2 = None ↔ length img ≤ 160)
  ∧ (length img ≤ 160 →
     (slice_grid img seg).1
     = ((drawn img seg <$> seq 0 ((length img + 7) / 8))
        ++ replicate (20 - (length img + 7) / 8) blank)%list)
  ∧ (160 < length img →
     slice_grid img seg = (drawn img seg <$> seq 0 20, Some (IndexError 20 20))).
Proof.
  intros Hseg. set (n := length img) in *.
  assert (Hstart : subplots 5 4 = after_turns img seg 0) by reflexivity.
  assert (Hfit : n ≤ 160 → slice_grid img seg = (after_turns img seg ((n + 7) / 8), None)).
  { intros Hn. unfold slice_grid, slice_indices. fold n. rewrite Hstart.
    apply draw_all_fill; [by apply turns_bound| |done].
    intros k Hk. by apply turns_in_range. }
  assert (Hover : 160 < n →
            slice_grid img seg = (drawn img seg <$> seq 0 20, Some (IndexError 20 20))).
  { intros Hn. unfold slice_grid, slice_indices. fold n. rewrite Hstart.
    assert (Hc : 20 < (n + 7) / 8).
    { pose proof (turns_bound n). lia. }
    replace ((n + 7) / 8) with (20 + S ((n + 7) / 8 - 21)) by lia.
    rewrite seq_app, fmap_app, draw_all_app.
    rewrite draw_all_fill; [|lia| |done].
    - rewrite <- cons_seq, fmap_cons, draw_all_cons.
      rewrite draw_past by (rewrite after_turns_length; lia).
      rewrite after_turns_length by lia.
      unfold after_turns. simpl replicate. by rewrite app_nil_r.
    - intros k Hk. unfold n in Hn. lia. }
  split; [|split; [|done]].
  - split.
    + intros Hnone. destruct (decide (n ≤ 160)) as [|Hn]; [done|].
      rewrite Hover in Hnone by lia. done.
    + intros Hn. by rewrite Hfit.
  - intros Hn. by rewrite Hfit.
Qed.

End GridFacts.

(** X6, witness: a volume of one slice gives one drawn axes and nineteen
    blank ones. *)
Lemma slice_grid_bounds_sample :
  (Plot.slice_grid (voxels Sample.t1_image) (voxels Sample.seg_image)).1
  = Plot.drawn (voxels Sample.t1_image) (voxels Sample.seg_image) 0
    :: replicate 19 Plot.blank.
Proof.
  exact (proj1 (proj2 (slice_grid_bounds (voxels Sample.t1_image)
                         (voxels Sample.seg_image) ltac:(vm_compute; lia)))
           ltac:(vm_compute; lia)).
Defined.

(** * Column names of the prepared frame *)

Section NamesMore.

Import Radiomics.

Lemma string_app_cons (x : ascii) (a b : string) :
  String x a ++ b = String x (a ++ b).
Proof. reflexivity. Qed.

Lemma string_app_nil_l (b : string) : "" ++ b = b.
Proof. reflexivity. Qed.

Lemma string_app_assoc (a b c : string) : (a ++ b) ++ c = a ++ (b ++ c).
Proof.
  induction a as [|x a IH]; [done|]. by rewrite !string_app_cons, IH.
Qed.

Lemma string_app_empty_r (a : string) : a ++ "" = a.
Proof.
  induction a as [|x a IH]; [done|]. by rewrite string_app_cons, IH.
Qed.

Lemma string_app_length (a b : string) :
  String.length (a ++ b) = (String.length a + String.length b)%nat.
Proof.
  induction a as [|x a IH]; [done|].
  rewrite string_app_cons. simpl. by rewrite IH.
Qed.

Lemma rev_app_spec (s acc : string) : String.rev_app s acc = String.rev s ++ acc.
Proof.
  unfold String.rev. revert acc. induction s as [|x s IH]; intros acc; [done|].
  simpl. rewrite (IH (String x acc)), (IH (String x "")), string_app_assoc. done.
Qed.

Lemma rev_cons (x : ascii) (s : string) :
  String.rev (String x s) = String.rev s ++ String x "".
Proof. unfold String.rev at 1. simpl. apply rev_app_spec. Qed.

Lemma rev_app_distr (a b : string) :
  String.rev (a ++ b) = String.rev b ++ String.rev a.
Proof.
  induction a as [|x a IH].
  - change (String.rev "") with "". by rewrite string_app_empty_r.
  - by rewrite string_app_cons, !rev_cons, IH, string_app_assoc.
Qed.

Lemma rev_involutive (s : string) : String.rev (String.rev s) = s.
Proof.
  induction s as [|x s IH]; [done|].
  by rewrite rev_cons, rev_app_distr, IH.
Qed.

Lemma rev_length (s : string) : String.length (String.rev s) = String.length s.
Proof.
  induction s as [|x s IH]; [done|].
  rewrite rev_cons, string_app_length, IH. simpl. lia.
Qed.

Lemma lstrip_length (s : string) :
  lstrip s = s ∨ (String.length (lstrip s) < String.length s)%nat.
Proof.
  induction s as [|x s IH]; [by left|].
  simpl. destruct (is_space x); [|by left].
  right. destruct IH as [->|IH]; lia.
Qed.

(** A name that [strip] leaves alone has no white space at either end. *)
Lemma strip_fixed (s : string) :
  strip s = s → lstrip s = s ∧ lstrip (String.rev s) = String.rev s.
Proof.
  intros Hs.
  assert (Hl : lstrip s = s).
  { destruct (lstrip_length s) as [|Hlt]; [done|].
    apply (f_equal String.length) in Hs. unfold strip in Hs.
    rewrite rev_length in Hs.
    destruct (lstrip_length (String.rev (lstrip s))) as [E|Hlt'].
    - rewrite E, rev_length in Hs. lia.
    - rewrite rev_length in Hlt'. lia. }
  split; [done|].
  unfold strip in Hs. rewrite Hl in Hs.
  apply (f_equal String.rev) in Hs. by rewrite rev_involutive in Hs.
Qed.

Lemma lstrip_before_underscore (a b : string) :
  lstrip a = a → lstrip (a ++ "_" ++ b) = a ++ "_" ++ b.
Proof.
  destruct a as [|x a]; [done|]. rewrite string_app_cons. simpl.
  destruct (is_space x); [|done].
  intros Ha. apply (f_equal String.length) in Ha. simpl in Ha.
  destruct (lstrip_length a) as [E|Hlt]; [rewrite E in Ha|]; lia.
Qed.

Lemma strip_joined (f s : string) :
  strip f = f → strip s = s → strip (f ++ "_" ++ s) = f ++ "_" ++ s.
Proof.
  intros [Hf _]%strip_fixed [_ Hs]%strip_fixed. unfold strip.
  rewrite (lstrip_before_underscore f s Hf).
  rewrite rev_app_distr, (rev_app_distr "_" s), string_app_assoc.
  change (String.rev "_") with "_".
  rewrite (lstrip_before_underscore _ _ Hs).
  rewrite rev_app_distr, (rev_app_distr "_"), !rev_involutive.
  change (String.rev "_") with "_". apply string_app_assoc.
Qed.

Lemma underscore_inside (a b : string) :
  underscore_free (a ++ String "_" b) = false.
Proof.
  induction a as [|x a IH]; [done|].
  rewrite string_app_cons. simpl. rewrite IH. apply andb_false_r.
Qed.

(** The join can be undone when the second part has no underscore. *)
Lemma join_inj (f1 s1 f2 s2 : string) :
  underscore_free s1 = true → underscore_free s2 = true →
  f1 ++ "_" ++ s1 = f2 ++ "_" ++ s2 → f1 = f2 ∧ s1 = s2.
Proof.
  intros H1 H2. revert f2. induction f1 as [|x f1 IH]; intros [|y f2] E;
    rewrite ?string_app_cons, ?string_app_nil_l in E.
  - by injection E.
  - injection E as _ ->. by rewrite underscore_inside in H1.
  - injection E as _ <-. by rewrite underscore_inside in H2.
  - injection E as -> E. by destruct (IH _ E) as [-> ->].
Qed.

Lemma is_ascii_app (a b : string) :
  is_ascii (a ++ b) = is_ascii a && is_ascii b.
Proof.
  induction a as [|x a IH]; [done|].
  rewrite string_app_cons. simpl. by rewrite IH, andb_assoc.
Qed.

(** X10: on a table with a number in every feature cell, whose feature
    and sequence names are ASCII text without white space at either end,
    with distinct feature names and no underscore in a sequence name,
    joining the two levels of the column index loses nothing: [strip]
    changes no name, the column names of the prepared frame are ASCII
    text, and they are distinct. *)
Theorem column_names_distinct (t : table) :
  complete t →
  NoDup (feature_names t) →
  Forall (λ f, is_ascii f = true ∧ strip f = f) (feature_names t) →
  Forall (λ r, is_ascii (sequence r) = true
               ∧ strip (sequence r) = sequence r
               ∧ underscore_free (sequence r) = true) (rows t) →
  column_names (prepare t)
  = (λ col, col.1 ++ "_" ++ col.2) <$> columns (pivot_table t)
  ∧ Forall (λ name, is_ascii name = true) (column_names (prepare t))
  ∧ NoDup (column_names (prepare t)).
Proof.
  intros _ Hnd Hf Hs. rewrite Forall_forall in Hf. rewrite Forall_forall in Hs.
  assert (Hcol : ∀ f s, (f, s) ∈ columns (pivot_table t) →
            (is_ascii f = true ∧ strip f = f)
            ∧ is_ascii s = true ∧ strip s = s ∧ underscore_free s = true).
  { intros f s [Hin (r & -> & Hr)%list_elem_of_fmap]%columns_elem.
    split; [by apply Hf|]. by apply Hs. }
  assert (Hnames : column_names (prepare t)
            = (λ col, col.1 ++ "_" ++ col.2) <$> columns (pivot_table t)).
  { rewrite prepare_column_names. unfold joined.
    apply Forall_fmap_ext_1, Forall_forall. intros [f s] Hin.
    destruct (Hcol f s Hin) as ((_ & H1) & _ & H2 & _). by apply strip_joined. }
  split; [done|]. rewrite Hnames. split.
  - apply Forall_fmap, Forall_forall. intros [f s] Hin. unfold compose.
    destruct (Hcol f s Hin) as ((H1 & _) & H2 & _). cbn [fst snd].
    rewrite !is_ascii_app, H1, H2. reflexivity.
  - apply NoDup_fmap_2_strong; [|by apply columns_NoDup].
    intros [f1 s1] [f2 s2] Hin1 Hin2 E. simpl in E.
    destruct (Hcol f1 s1 Hin1) as (_ & _ & _ & H1).
    destruct (Hcol f2 s2 Hin2) as (_ & _ & _ & H2).
    by destruct (join_inj _ _ _ _ H1 H2 E) as [-> ->].
Qed.

(** X11: the join alone does not tell the levels apart: a feature name
    that ends in [_a] under sequence [b] and the same name without that
    ending under sequence [a_b] get one and the same column name. *)
Theorem joined_confuses_levels (f a b : string) :
  joined [(f ++ "_" ++ a, b)] = joined [(f, a ++ "_" ++ b)].
Proof.
  unfold joined. cbn [fmap list_fmap fst snd].
  by rewrite string_app_assoc.
Qed.

End NamesMore.

(** X10, witness: the features [volume] and [energy] under the sequences
    [t1] and [t2]. *)
Lemma column_names_distinct_sample :
  Radiomics.column_names (Radiomics.prepare Sample.table)
  = ["energy_t1"; "energy_t2"; "volume_t1"; "volume_t2"]
  ∧ Forall (λ name, is_ascii name = true)
           (Radiomics.column_names (Radiomics.prepare Sample.table))
  ∧ NoDup (Radiomics.column_names (Radiomics.prepare Sample.table)).
Proof.
  apply (column_names_distinct Sample.table).
  - unfold complete. repeat constructor.
  - apply (bool_decide_unpack _). vm_compute. exact I.
  - repeat constructor.
  - repeat constructor.
Defined.

(** * Features and targets *)

Section FeaturesMore.

Import Radiomics.
Local Open Scope nat_scope.

Implicit Types (t : table) (r : row) (key : string * string).

Lemma mean_None (l : list Q) : mean l = None ↔ l = [].
Proof. by destruct l. Qed.

Lemma group_nil t key f s :
  complete t → f ∈ feature_names t →
  group t key f s = []
  ↔ ∀ r, r ∈ rows t → (patient r, label r) = key → sequence r ≠ s.
Proof.
  intros Hc Hf. unfold group. split.
  - intros Hnil r Hr Hkey Hs.
    destruct (value_complete t r f Hc Hr Hf) as [v Hv].
    assert (Hin : v ∈ omap (λ r, value t r f)
              (filter (λ r, (patient r, label r) = key ∧ sequence r = s) (rows t))).
    { apply list_elem_of_omap. exists r. split; [|done].
      by apply list_elem_of_filter. }
    rewrite Hnil in Hin. by apply elem_of_nil in Hin.
  - intros Hno. rewrite filter_none; [done|].
    intros r Hr [Hkey Hs]. by apply (Hno r).
Qed.

Lemma x_data_rows t :
  x_data (prepare t)
  = (λ key, (λ c, mean (group t key c.1 c.2)) <$> columns (pivot_table t))
    <$> keys t.
Proof. unfold x_data. by rewrite prepare_rows, <- list_fmap_compose. Qed.

Lemma columns_length t :
  length (columns (pivot_table t))
  = length (feature_names t) * length (sequences t).
Proof.
  unfold pivot_table. simpl.
  assert (Hlen : length (sorted (feature_names t)) = length (feature_names t)).
  { unfold sorted. by rewrite merge_sort_Permutation. }
  rewrite <- Hlen. generalize (sorted (feature_names t)). intros fs.
  induction fs as [|f fs IH]; [done|].
  rewrite bind_cons, length_app, IH. simpl. f_equal.
  generalize (sequences t). intros ss.
  induction ss as [|s ss IHs]; [done|].
  rewrite bind_cons. simpl. by rewrite IHs.
Qed.

Lemma encoded_inj l1 l2 : encoded l1 = encoded l2 → l1 = l2.
Proof.
  unfold encoded. repeat case_decide; congruence.
Qed.

(** X7: in a table with a number in every feature cell, a cell of the
    prepared frame is missing exactly when the table has no row of that
    patient and label for the sequence of the cell's column.  This holds
    of every row of the frame and every column. *)
Theorem x_data_missing_cell t pr k f s :
  complete t →
  pr ∈ prepared_rows (prepare t) →
  columns (pivot_table t) !! k = Some (f, s) →
  ∃ c, p_values pr !! k = Some c
       ∧ (c = None
          ↔ ∀ r, r ∈ rows t → patient r = p_patient pr →
                 encoded (label r) = p_label pr → sequence r ≠ s).
Proof.
  intros Hc Hpr Hk. rewrite prepare_rows in Hpr.
  apply list_elem_of_fmap in Hpr as [[p l] [-> Hkey]].
  cbn [p_values p_patient p_label fst snd].
  eexists. split; [by rewrite list_lookup_fmap, Hk|].
  cbn [fst snd]. rewrite mean_None, group_nil; [|done|].
  - split.
    + intros Hno r Hr Hp Hl%encoded_inj. apply (Hno r Hr). by rewrite Hp, Hl.
    + intros Hno r Hr [= Hp Hl]. apply (Hno r Hr); by rewrite ?Hp, ?Hl.
  - apply list_elem_of_lookup_2 in Hk. by apply columns_elem in Hk as [Hf _].
Qed.

Section Outcome.

Variable int_of_str : string → option Z.

Lemma astype_int_encoded l :
  (label_ok int_of_str l → is_ok (astype_int int_of_str (encoded l)))
  ∧ (∀ e, astype_int int_of_str (encoded l) = Raise e →
       ¬ label_ok int_of_str l
       ∧ (int_of_str l = None ∧ e = ValueError l
          ∨ ∃ z msg, int_of_str l = Some z ∧ ¬ int64 z ∧ e = OverflowError msg)).
Proof.
  unfold encoded, label_ok, grade.
  destruct (decide (l = "HGG")) as [->|Hh].
  { split; [by eexists|done]. }
  destruct (decide (l = "LGG")) as [->|Hl].
  { split; [by eexists|done]. }
  simpl. destruct (int_of_str l) as [z|] eqn:E.
  - destruct (decide (int64 z)) as [Hz|Hz].
    + split; [by eexists|done].
    + split.
      * intros [[?|?]|(z' & [= <-] & Hz')]; done.
      * intros e [= <-]. split.
        -- intros [[?|?]|(z' & [= <-] & Hz')]; done.
        -- right. by eexists _, _.
  - split.
    + intros [[?|?]|(z & Hz & _)]; done.
    + intros e [= <-]. split; [|by left].
      intros [[?|?]|(z & Hz & _)]; done.
Qed.

Lemma astype_int_all_length cs zs :
  astype_int_all int_of_str cs = Ok zs → length zs = length cs.
Proof.
  revert zs. induction cs as [|c cs IH]; intros zs; cbn [astype_int_all].
  - by intros [= <-].
  - destruct (astype_int int_of_str c) as [z|e]; [|done].
    cbn [mbind result_bind rbind].
    destruct (astype_int_all int_of_str cs) as [zs'|e]; [|done].
    cbn [mbind result_bind rbind mret result_ret].
    intros [= <-]. simpl. by rewrite (IH zs').
Qed.

Lemma astype_int_all_outcome (labels : list string) :
  (is_ok (astype_int_all int_of_str (encoded <$> labels))
   ↔ Forall (label_ok int_of_str) labels)
  ∧ (∀ e, astype_int_all int_of_str (encoded <$> labels) = Raise e →
       ∃ l, l ∈ labels
            ∧ ¬ label_ok int_of_str l
            ∧ (int_of_str l = None ∧ e = ValueError l
               ∨ ∃ z msg, int_of_str l = Some z ∧ ¬ int64 z
                          ∧ e = OverflowError msg)).
Proof.
  induction labels as [|l labels [IHok IHerr]].
  - split; [|done]. split; [done|]. intros _. by eexists.
  - rewrite fmap_cons. cbn [astype_int_all].
    destruct (astype_int_encoded l) as [Hok Herr].
    destruct (astype_int int_of_str (encoded l)) as [z|e] eqn:E.
    + assert (Hl : label_ok int_of_str l).
      { destruct (decide (grade l)) as [|Hng]; [by left|].
        right. unfold encoded, grade in *.
        repeat case_decide; subst; try (exfalso; apply Hng; auto; fail).
        simpl in E. destruct (int_of_str l) as [z'|]; [|done].
        case_decide; [|done]. by exists z'. }
      cbn [mbind result_bind rbind].
      destruct (astype_int_all int_of_str (encoded <$> labels)) as [zs|e] eqn:E'.
      * split; [|done]. split; [|by eexists].
        intros _. constructor; [done|]. apply IHok. by eexists.
      * split.
        -- split; [by intros [? ?]|]. intros [_ Hall]%Forall_cons.
           apply IHok in Hall as [? ?]. done.
        -- intros e' [= <-]. destruct (IHerr e eq_refl) as (l' & Hin & Hno).
           exists l'. split; [by right|done].
    + destruct (Herr e eq_refl) as [Hno He]. split.
      * split; [by intros [? ?]|]. by intros [? _]%Forall_cons.
      * intros e' [= <-]. exists l. split; [left|done].
Qed.



End Outcome.

End FeaturesMore.

(** X7, witness: the row of patient [p1] and the first column of the
    sample frame. *)
Lemma x_data_missing_cell_sample :
  ∃ c, [Some 11%Q; Some 7%Q; Some (9 # 2)%Q; Some (5 # 2)%Q] !! 0%nat = Some c
       ∧ (c = None
          ↔ ∀ r, r ∈ Radiomics.rows Sample.table → Radiomics.patient r = "p1" →
                 Radiomics.encoded (Radiomics.label r) = Radiomics.Int 0 →
                 Radiomics.sequence r ≠ "t1").
Proof.
  apply (x_data_missing_cell Sample.table
           (Radiomics.PRow "p1" (Radiomics.Int 0)
              [Some 11%Q; Some 7%Q; Some (9 # 2)%Q; Some (5 # 2)%Q])
           0 "energy" "t1").
  - unfold complete. repeat constructor.
  - vm_compute. left.
  - vm_compute. reflexivity.
Defined.



(** * The confusion matrix *)

Section ConfusionMore.

Local Open Scope nat_scope.

Lemma filter_length_ext {A} (P Q : A → Prop)
    `{!∀ x, Decision (P x)} `{!∀ x, Decision (Q x)} (l : list A) :
  (∀ x, x ∈ l → P x ↔ Q x) → length (filter P l) = length (filter Q l).
Proof.
  induction l as [|a l IH]; intros Hext; [done|].
  rewrite !filter_cons.
  assert (Ha : P a ↔ Q a) by (apply Hext; left).
  assert (Hl : length (filter P l) = length (filter Q l)).
  { apply IH. intros x Hx. apply Hext. by right. }
  destruct (decide (P a)), (decide (Q a)); simpl; try tauto; lia.
Qed.

(** Counting by value, over distinct values, counts what takes one of
    the values. *)
Lemma sum_count {A B} `{!EqDecision B} (f : A → B) (l : list B) (zs : list A) :
  NoDup l →
  sum_list ((λ b, length (filter (λ z, f z = b) zs)) <$> l)
  = length (filter (λ z, f z ∈ l) zs).
Proof.
  induction 1 as [|b l Hb Hnd IH].
  - simpl. symmetry. rewrite filter_none; [done|]. intros y _. apply not_elem_of_nil.
  - rewrite fmap_cons. simpl. rewrite IH. clear IH.
    induction zs as [|z zs IHz]; [done|].
    rewrite !filter_cons.
    destruct (decide (f z = b)) as [E|E].
    + rewrite decide_False by (by rewrite E).
      rewrite decide_True by (rewrite E; left). simpl. lia.
    + destruct (decide (f z ∈ l)) as [Hin|Hin].
      * rewrite decide_True by (by right). simpl. lia.
      * rewrite decide_False; [done|].
        by intros [?|?]%elem_of_cons.
Qed.

Lemma sum_list_concat (ls : list (list nat)) :
  sum_list (concat ls) = sum_list (sum_list <$> ls).
Proof.
  induction ls as [|l ls IH]; [done|].
  rewrite fmap_cons. simpl. rewrite <- IH. clear IH.
  induction l as [|x l IHl]; [done|]. simpl. rewrite IHl. lia.
Qed.

(** The pairs of labels, row by row. *)
Lemma pairs_NoDup {A} (l : list A) :
  NoDup l → NoDup (a ← l; b ← l; [(a, b)]).
Proof.
  intros Hnd. apply NoDup_bind; [| |done].
  - intros a1 a2 c _ _ H1 H2.
    apply list_elem_of_bind in H1 as (b1 & H1 & _).
    apply list_elem_of_bind in H2 as (b2 & H2 & _).
    apply list_elem_of_singleton in H1, H2. congruence.
  - intros a _. apply NoDup_bind; [| |done].
    + intros b1 b2 c _ _ H1 H2. apply list_elem_of_singleton in H1, H2. congruence.
    + intros b _. apply NoDup_singleton.
Qed.

Lemma pairs_elem {A} (l : list A) (p : A * A) :
  p ∈ (a ← l; b ← l; [(a, b)]) ↔ p.1 ∈ l ∧ p.2 ∈ l.
Proof.
  rewrite list_elem_of_bind. split.
  - intros (a & (b & ->%list_elem_of_singleton & Hb)%list_elem_of_bind & Ha). done.
  - intros [Ha Hb]. exists p.1. split; [|done].
    apply list_elem_of_bind. exists p.2. split; [|done].
    apply list_elem_of_singleton. by destruct p.
Qed.

Lemma matrix_concat (y_true y_pred rows cols : list Z) :
  concat ((λ a, (λ b, Sk.hits y_true y_pred a b) <$> cols) <$> rows)
  = (λ ab, Sk.hits y_true y_pred ab.1 ab.2) <$> (a ← rows; b ← cols; [(a, b)]).
Proof.
  induction rows as [|a rows IH]; [done|].
  rewrite fmap_cons, bind_cons, fmap_app. simpl. rewrite IH. f_equal.
  clear IH. induction cols as [|b bs IHb]; [done|].
  rewrite fmap_cons, bind_cons. simpl. by rewrite IHb.
Qed.

Lemma confusion_matrix_length (y_true y_pred labels : list Z)
    (cm : list (list nat)) :
  Sk.confusion_matrix y_true y_pred labels = Ok cm → length cm = length labels.
Proof.
  unfold Sk.confusion_matrix. intros Hcm.
  repeat case_decide; try done. injection Hcm as <-. by rewrite length_fmap.
Qed.

(** X12: when [confusion_matrix] returns, the matrix is square, one row
    and one column per label; and for distinct labels its entries add up
    to the number of samples whose true and predicted classes are both
    among the labels: samples of any other class are left out without a
    word. *)
Theorem confusion_matrix_total (y_true y_pred labels : list Z)
    (cm : list (list nat)) :
  Sk.confusion_matrix y_true y_pred labels = Ok cm →
  length cm = length labels
  ∧ Forall (λ counts, length counts = length labels) cm
  ∧ (NoDup labels →
     sum_list (concat cm)
     = length (filter (λ p, p.1 ∈ labels ∧ p.2 ∈ labels) (zip y_true y_pred))).
Proof.
  unfold Sk.confusion_matrix. intros Hcm.
  repeat case_decide; try done. injection Hcm as <-.
  split; [by rewrite length_fmap|]. split.
  - apply Forall_fmap, Forall_forall. intros a _. unfold compose.
    by rewrite length_fmap.
  - intros Hnd. rewrite matrix_concat. unfold Sk.hits.
    rewrite <- (filter_length_ext
                  (λ p, p ∈ (a ← labels; b ← labels; [(a, b)])) _
                  (zip y_true y_pred) (λ p _, pairs_elem labels p)).
    rewrite <- (sum_count (λ p : Z * Z, p) _ _ (pairs_NoDup labels Hnd)).
    f_equal. apply list_fmap_ext. intros _ [a b] _. simpl.
    apply filter_length_ext. intros [a' b'] _. simpl.
    split; [by intros [-> ->]|by intros [= -> ->]].
Qed.

(** X13: the plot has two names, so the confusion-matrix cell succeeds
    exactly when the matrix can be computed and the classifier holds two
    classes; for a classifier fitted on grades that means it saw both an
    [HGG] and an [LGG] sample. *)
Theorem confusion_cell_needs_two_classes (classes_ y_test predictions : list Z) :
  (is_ok (confusion_cell classes_ y_test predictions)
   ↔ is_ok (Sk.confusion_matrix y_test predictions classes_)
     ∧ length classes_ = 2)
  ∧ ∀ train_labels, Forall grade train_labels →
      classes_ = Sk.unique (class_of <$> train_labels) →
      is_ok (confusion_cell classes_ y_test predictions) →
      "HGG" ∈ train_labels ∧ "LGG" ∈ train_labels.
Proof.
  assert (Hiff : is_ok (confusion_cell classes_ y_test predictions)
            ↔ is_ok (Sk.confusion_matrix y_test predictions classes_)
              ∧ length classes_ = 2).
  { unfold confusion_cell.
    destruct (Sk.confusion_matrix y_test predictions classes_) as [cm|e] eqn:E.
    - pose proof (confusion_matrix_length _ _ _ _ E) as Hlen.
      cbn [mbind result_bind rbind]. unfold Sk.ConfusionMatrixDisplay.
      rewrite Hlen. change (length display_labels) with 2.
      case_decide as Hc.
      + split; [intros _; split; [by eexists|done]|intros _; by eexists].
      + split; [by intros [? ?]|]. intros [_ ?]. by destruct Hc.
    - cbn [mbind result_bind rbind]. split; [by intros [? ?]|by intros [[? ?] _]]. }
  split; [done|].
  intros train_labels Hg -> [_ Hlen]%Hiff.
  assert (Hin : ∀ z, z ∈ Sk.unique (class_of <$> train_labels)
                     ↔ z ∈ class_of <$> train_labels).
  { intros z. unfold Sk.unique. by rewrite merge_sort_Permutation, elem_of_remove_dups. }
  assert (Hnd : NoDup (Sk.unique (class_of <$> train_labels))).
  { unfold Sk.unique. rewrite merge_sort_Permutation. apply NoDup_remove_dups. }
  assert (Hboth : (0%Z ∈ class_of <$> train_labels) ∧ (1%Z ∈ class_of <$> train_labels)).
  { destruct (Sk.unique (class_of <$> train_labels)) as [|a [|b [|c u]]]; try done.
    apply NoDup_cons in Hnd as [Hab _]. rewrite not_elem_of_cons in Hab.
    destruct Hab as [Hab _].
    assert (Ha : a ∈ class_of <$> train_labels) by (apply Hin; left).
    assert (Hb : b ∈ class_of <$> train_labels) by (apply Hin; right; left).
    destruct (class_of_values _ _ Ha) as [->| ->],
             (class_of_values _ _ Hb) as [->| ->]; done. }
  rewrite Forall_forall in Hg.
  destruct Hboth as [[l0 [H0 Hl0]]%list_elem_of_fmap [l1 [H1 Hl1]]%list_elem_of_fmap].
  split.
  - destruct (Hg l1 Hl1) as [->| ->]; [done|by vm_compute in H1].
  - destruct (Hg l0 Hl0) as [->| ->]; [by vm_compute in H0|done].
Qed.

End ConfusionMore.

(** X12, witness: three samples, one of a class outside the labels. *)
Lemma confusion_matrix_total_sample :
  length [[1; 0]; [0; 1]]%nat = 2%nat
  ∧ Forall (λ counts, length counts = 2%nat) [[1; 0]; [0; 1]]%nat
  ∧ (NoDup [0; 1]%Z →
     sum_list (concat [[1; 0]; [0; 1]]%nat)
     = length (filter (λ p, p.1 ∈ [0; 1]%Z ∧ p.2 ∈ [0; 1]%Z)
                      (zip [0; 1; 2]%Z [0; 1; 1]%Z))).
Proof.
  apply (confusion_matrix_total [0; 1; 2]%Z [0; 1; 1]%Z [0; 1]%Z).
  vm_compute. reflexivity.
Defined.

(** X13, witness: a classifier fitted on one [HGG] and one [LGG] sample. *)
Lemma confusion_cell_needs_two_classes_sample :
  "HGG" ∈ ["HGG"; "LGG"] ∧ "LGG" ∈ ["HGG"; "LGG"].
Proof.
  apply (proj2 (confusion_cell_needs_two_classes [0; 1]%Z [0; 1]%Z [1; 1]%Z)
           ["HGG"; "LGG"]).
  - repeat constructor; ((by left) || (by right)).
  - vm_compute. reflexivity.
  - eexists. vm_compute. reflexivity.
Defined.
